(** * squat: pointwise mean and median of a sample of quaternion time series

    A shallow embedding of [src/squatQTSSampleClass.cpp] (the two drivers
    [mean_qts_impl] and [median_qts_impl]) over a small model of the R
    objects they handle through Rcpp, and the properties of them that
    the specification states. *)

From Stdlib Require Import ZArith NArith Lia.
From stdpp Require Import base list strings.

Open Scope string_scope.
Open Scope list_scope.
Open Scope nat_scope.

(** ** The values the drivers move around *)

(** R objects are shared: a data frame holds pointers to its columns, a
    list holds pointers to its data frames, and [NumericVector] and
    [DataFrame] are handles on them.  The store keeps the column vectors
    and the data frames apart; a location is an index in one of them. *)
Abbreviation loc := nat.

Section Store.

(** [D] stands for [double]: the drivers only copy scalars, they never
    compute with them.  [X] stands for any R value that is not a double
    vector (an integer or character column, an attribute value). *)
Context {D X : Type}.

(** [Eigen::VectorXd] and [Eigen::Vector4d]. *)
Definition VectorXd : Type := list D.

Record Vector4d : Type := V4 { c0 : D; c1 : D; c2 : D; c3 : D }.

Definition to_xd (q : Vector4d) : VectorXd := [c0 q; c1 q; c2 q; c3 q].

(** ** R objects *)

(** A column of a data frame: a double vector, or anything else. *)
Inductive column : Type :=
| Real (v : list D)
| NonReal (x : X).

(** A data frame: its columns in order under their names, the number of
    rows its [row.names] attribute records, its [class] attribute and
    its other attributes. *)
Record frame : Type := Frame {
  cols : list (string * loc);
  row_names : nat;
  class_attr : list string;
  attribs : list (string * X)
}.

(** The store: the column vectors and the data frames (the objects Rcpp
    takes as a [DataFrame] as they are) that exist. *)
Record heap : Type := Heap {
  vecs : list column;
  frames : list frame
}.

(** ** Computations: a store, and exceptions *)

(** A thrown exception (or an R error) leaves the store as it is at that
    moment and yields no value. *)
Definition M (A : Type) : Type := heap → option A * heap.

Definition ret {A} (a : A) : M A := λ h, (Some a, h).

Definition throw {A} : M A := λ h, (None, h).

Definition bind {A B} (m : M A) (k : A → M B) : M B :=
  λ h, match m h with
       | (Some a, h') => k a h'
       | (None, h') => (None, h')
       end.

Definition lift_opt {A} (o : option A) : M A := λ h, (o, h).

End Store.

Declare Scope rcpp_scope.
Delimit Scope rcpp_scope with rcpp.
Notation "x <- m ;; k" := (bind m (λ x, k))
  (at level 100, m at next level, right associativity) : rcpp_scope.
Notation "m ;;; k" := (bind m (λ _, k))
  (at level 100, right associativity) : rcpp_scope.

Section Rcpp.

Context {D X : Type}.

(** [Rcpp::as<NumericVector>] on a value that is not a double vector:
    integer, logical, raw and complex vectors are coerced, to a vector of
    their own; anything else throws [not_compatible]. *)
Variable coerce : X → option (list D).

(** What a read past the end of an R list hands back (see [list_elt]). *)
Variable stray : list loc → nat → option loc.

Local Open Scope rcpp_scope.

Local Abbreviation M := (@M D X).
Local Abbreviation heap := (@heap D X).
Local Abbreviation frame := (@frame X).
Local Abbreviation column := (@column D X).
Local Abbreviation Vector4d := (@Vector4d D).
Local Abbreviation VectorXd := (@VectorXd D).

Definition get_frame (p : loc) : M frame := λ h, (frames h !! p, h).

Definition get_vec (c : loc) : M column := λ h, (vecs h !! c, h).

Definition alloc_vec (v : column) : M loc :=
  λ h, (Some (length (vecs h)), Heap (vecs h ++ [v]) (frames h)).

Definition alloc_frame (f : frame) : M loc :=
  λ h, (Some (length (frames h)), Heap (vecs h) (frames h ++ [f])).

Definition set_vec (c : loc) (v : column) : M unit :=
  λ h, (Some tt, Heap (<[c := v]> (vecs h)) (frames h)).

(** [qts_list[j]]: element [j] of a list.  [Rcpp::List::operator[]]
    makes no test of its index: inside the list it hands out the element;
    outside, the read is undefined, and what comes back is what the memory
    past the end of the list is taken for, [stray l j] below: an object,
    which may well be one the store already holds, or nothing, when the
    access stops the call. *)
Definition elt (l : list loc) (j : nat) : option loc :=
  match l !! j with
  | Some p => Some p
  | None => stray l j
  end.

Definition list_elt (l : list loc) (j : nat) : M loc := lift_opt (elt l j).

(** [Rcpp::clone] is [Rf_duplicate], a deep copy: of a data frame, a new
    data frame with the same names and attributes whose columns are new
    vectors with the contents of the old ones. *)
Fixpoint clone_cols (cs : list (string * loc)) : M (list (string * loc)) :=
  match cs with
  | [] => ret []
  | (n, c) :: cs' =>
      v <- get_vec c ;;
      c' <- alloc_vec v ;;
      r <- clone_cols cs' ;;
      ret ((n, c') :: r)
  end.

Definition clone_frame (p : loc) : M loc :=
  f <- get_frame p ;;
  cs <- clone_cols (cols f) ;;
  alloc_frame (Frame cs (row_names f) (class_attr f) (attribs f)).

(** Of a list of data frames: every element is copied. *)
Fixpoint Rcpp_clone (l : list loc) : M (list loc) :=
  match l with
  | [] => ret []
  | p :: l' =>
      p' <- clone_frame p ;;
      r <- Rcpp_clone l' ;;
      ret (p' :: r)
  end.

(** [DataFrame::nrows()] reads the [row.names] attribute. *)
Definition nrows (p : loc) : M nat :=
  f <- get_frame p ;;
  ret (row_names f).

(** A [NumericVector] handle: on a double column of the store, which it
    shares with the data frame, or on a vector of its own when the
    column had to be coerced. *)
Inductive NumericVector : Type :=
| Shared (c : loc)
| Private (v : list D).

(** [df[name]]: the first column under that name, [index_out_of_bounds]
    when there is none. *)
Fixpoint find_col (name : string) (cs : list (string * loc)) : option loc :=
  match cs with
  | [] => None
  | (n, c) :: cs' => if decide (n = name) then Some c else find_col name cs'
  end.

(** [NumericVector v = df[name]]. *)
Definition column_by_name (p : loc) (name : string) : M NumericVector :=
  f <- get_frame p ;;
  c <- lift_opt (find_col name (cols f)) ;;
  v <- get_vec c ;;
  match v with
  | Real _ => ret (Shared c)
  | NonReal x =>
      match coerce x with
      | Some v' => ret (Private v')
      | None => throw
      end
  end.

Definition values (nv : NumericVector) : M (list D) :=
  match nv with
  | Shared c =>
      v <- get_vec c ;;
      match v with
      | Real vs => ret vs
      | NonReal _ => throw
      end
  | Private vs => ret vs
  end.

(** [v(i)] checks its index and throws [index_out_of_bounds]. *)
Definition read_at (nv : NumericVector) (i : nat) : M D :=
  vs <- values nv ;;
  lift_opt (vs !! i).

(** [v(i) = d] writes in place: into the column of the store for a
    shared handle, into the handle's own vector otherwise. *)
Definition write_at (nv : NumericVector) (i : nat) (d : D) : M unit :=
  vs <- values nv ;;
  if decide (i < length vs)
  then match nv with
       | Shared c => set_vec c (Real (<[i := d]> vs))
       | Private _ => ret tt
       end
  else throw.

(** [f] with another [class] attribute. *)
Definition with_class (cl : list string) (f : frame) : frame :=
  Frame (cols f) (row_names f) cl (attribs f).

(** [df.attr("class") = cl] sets the attribute of the object itself. *)
Definition set_class (p : loc) (cl : list string) : M unit :=
  λ h, match frames h !! p with
       | Some f => (Some tt, Heap (vecs h) (<[p := with_class cl f]> (frames h)))
       | None => (None, h)
       end.

(** [for (unsigned int i = start; i < start + n; ++i) s = body(i, s)]. *)
Fixpoint for_loop {St} (n start : nat) (body : nat → St → M St) (s : St) : M St :=
  match n with
  | 0 => ret s
  | S n' => s' <- body start s ;; for_loop n' (S start) body s'
  end.

(** The conversion of a size to [unsigned int] keeps its low 32 bits. *)
Definition to_uint (n : nat) : nat := N.to_nat (N.of_nat n mod 2 ^ 32)%N.

(** ** The drivers

    The aggregators [gmean] and [gmedian] of [squatSO3Utils.h], called
    with their default iteration cap and tolerance, are arguments. *)

Definition qts_class : list string := ["qts"; "tbl_df"; "tbl"; "data.frame"].

Definition mean_qts_impl (gmean : list VectorXd → Vector4d)
    (qts_list : list loc) : M loc :=
  let nSamples := to_uint (length qts_list) in
  cl <- Rcpp_clone qts_list ;;
  outValue <- list_elt cl 0 ;;
  nGrid <- nrows outValue ;;
  let qValues : list VectorXd := replicate nSamples [] in
  for_loop nGrid 0 (λ i qValues,
    qValues <- for_loop nSamples 0 (λ j qValues,
      tmpValue <- list_elt qts_list j ;;
      wValues <- column_by_name tmpValue "w" ;;
      xValues <- column_by_name tmpValue "x" ;;
      yValues <- column_by_name tmpValue "y" ;;
      zValues <- column_by_name tmpValue "z" ;;
      w <- read_at wValues i ;;
      x <- read_at xValues i ;;
      y <- read_at yValues i ;;
      z <- read_at zValues i ;;
      let avgQValue := V4 w x y z in
      ret (<[j := to_xd avgQValue]> qValues)) qValues ;;
    let avgQValue := gmean qValues in
    wValues <- column_by_name outValue "w" ;;
    xValues <- column_by_name outValue "x" ;;
    yValues <- column_by_name outValue "y" ;;
    zValues <- column_by_name outValue "z" ;;
    write_at wValues i (c0 avgQValue) ;;;
    write_at xValues i (c1 avgQValue) ;;;
    write_at yValues i (c2 avgQValue) ;;;
    write_at zValues i (c3 avgQValue) ;;;
    ret qValues) qValues ;;;
  set_class outValue qts_class ;;;
  ret outValue.

Definition median_qts_impl (gmedian : list VectorXd → Vector4d)
    (qts_list : list loc) : M loc :=
  let nSamples := to_uint (length qts_list) in
  cl <- Rcpp_clone qts_list ;;
  outValue <- list_elt cl 0 ;;
  nGrid <- nrows outValue ;;
  let qValues : list VectorXd := replicate nSamples [] in
  for_loop nGrid 0 (λ i qValues,
    qValues <- for_loop nSamples 0 (λ j qValues,
      tmpValue <- list_elt qts_list j ;;
      wValues <- column_by_name tmpValue "w" ;;
      xValues <- column_by_name tmpValue "x" ;;
      yValues <- column_by_name tmpValue "y" ;;
      zValues <- column_by_name tmpValue "z" ;;
      w <- read_at wValues i ;;
      x <- read_at xValues i ;;
      y <- read_at yValues i ;;
      z <- read_at zValues i ;;
      let avgQValue := V4 w x y z in
      ret (<[j := to_xd avgQValue]> qValues)) qValues ;;
    let avgQValue := gmedian qValues in
    wValues <- column_by_name outValue "w" ;;
    xValues <- column_by_name outValue "x" ;;
    yValues <- column_by_name outValue "y" ;;
    zValues <- column_by_name outValue "z" ;;
    write_at wValues i (c0 avgQValue) ;;;
    write_at xValues i (c1 avgQValue) ;;;
    write_at yValues i (c2 avgQValue) ;;;
    write_at zValues i (c3 avgQValue) ;;;
    ret qValues) qValues ;;;
  set_class outValue qts_class ;;;
  ret outValue.

(** ** What a caller can observe of a store *)

Definition wxyz : list string := ["w"; "x"; "y"; "z"].

(** The doubles of the column a data frame holds under [name]. *)
Definition col_values (h : heap) (f : frame) (name : string) : option (list D) :=
  c ← find_col name (cols f);
  col ← vecs h !! c;
  match col with
  | Real v => Some v
  | NonReal _ => None
  end.

(** The quaternion at grid point [i] of the series at [p]. *)
Definition quat_at (h : heap) (p : loc) (i : nat) : option Vector4d :=
  f ← frames h !! p;
  w ← col_values h f "w" ≫= (.!! i);
  x ← col_values h f "x" ≫= (.!! i);
  y ← col_values h f "y" ≫= (.!! i);
  z ← col_values h f "z" ≫= (.!! i);
  Some (V4 w x y z).

(** The sample set at grid point [i]: the quaternion of every series of
    the list there, in the order of the list. *)
Definition samples_at (h : heap) (l : list loc) (i : nat) : option (list VectorXd) :=
  mapM (λ p, to_xd <$> quat_at h p i) l.

(** [f] holds a double column of length [G] under [name]. *)
Definition real_col (h : heap) (f : frame) (G : nat) (name : string) : bool :=
  match col_values h f name with
  | Some v => bool_decide (length v = G)
  | None => false
  end.

(** A quaternion time series of grid size [G]: a data frame of [G] rows
    whose columns all exist and which has double columns [w], [x], [y]
    and [z] of length [G]. *)
Definition is_qts (h : heap) (G : nat) (p : loc) : bool :=
  match frames h !! p with
  | Some f =>
      bool_decide (row_names f = G)
      && forallb (λ nc, bool_decide (is_Some (vecs h !! nc.2))) (cols f)
      && forallb (real_col h f G) wxyz
  | None => false
  end.

(** Every object of [h] is in [h'], with the contents it has in [h]. *)
Definition preserved (h h' : heap) : Prop :=
  (∀ c v, vecs h !! c = Some v → vecs h' !! c = Some v) ∧
  (∀ p f, frames h !! p = Some f → frames h' !! p = Some f).

(** Two columns of the same type and length. *)
Definition same_shape (a b : column) : Prop :=
  match a, b with
  | Real v, Real v' => length v = length v'
  | NonReal x, NonReal x' => x = x'
  | _, _ => False
  end.

(** The columns a driver writes: those [out["w"]], [out["x"]], [out["y"]]
    and [out["z"]] stand for. *)
Definition written (f : frame) : list loc :=
  omap (λ name, find_col name (cols f)) wxyz.

(** A column of a deep copy, made from [h] and seen in [h']: under the
    same name, a vector that is no object of [h], with the contents of
    the column it copies. *)
Definition copied_col (h h' : heap) (nc nc' : string * loc) : Prop :=
  nc'.1 = nc.1 ∧ length (vecs h) ≤ nc'.2 ∧
  is_Some (vecs h !! nc.2) ∧ vecs h' !! nc'.2 = vecs h !! nc.2.

(** [fo], in [h'], is a deep copy of [f], in [h]: the same row count and
    attributes, and as many columns, all copies and no two the same. *)
Definition deep_copy (h h' : heap) (f fo : frame) : Prop :=
  row_names fo = row_names f ∧
  class_attr fo = class_attr f ∧
  attribs fo = attribs f ∧
  NoDup (cols fo).*2 ∧
  Forall2 (copied_col h h') (cols f) (cols fo).

(** A computation that reads the store and leaves it as it is. *)
Definition readonly {A} (m : M A) : Prop := ∀ h, (m h).2 = h.

(** [h'] is [h] with new objects after it. *)
Definition grows (h h' : heap) : Prop :=
  vecs h `prefix_of` vecs h' ∧ frames h `prefix_of` frames h'.

(** A data frame that is in the store with all its columns. *)
Definition clonable (h : heap) (p : loc) : Prop :=
  ∃ f, frames h !! p = Some f ∧ Forall (λ nc, is_Some (vecs h !! nc.2)) (cols f).

(** From [h] to [h'] no data frame changed, no column changed its type
    or length, and only the columns at [W] may hold other values. *)
Definition touched_only (W : list loc) (h h' : heap) : Prop :=
  frames h' = frames h ∧
  ∀ c, (c ∉ W → vecs h' !! c = vecs h !! c) ∧
       option_Forall2 same_shape (vecs h !! c) (vecs h' !! c).

(** The sample set at [i] as the aggregator receives it. *)
Definition sample (h : heap) (l : list loc) (i : nat) : list VectorXd :=
  default [] (samples_at h l i).

(** The column at [c] holds [G] doubles, the first [i] of them given by [g]. *)
Definition col_state (h : heap) (c : loc) (G i : nat) (g : nat → D) : Prop :=
  ∃ v, vecs h !! c = Some (Real v) ∧ length v = G ∧
       ∀ k, k < i → v !! k = Some (g k).

(** ** What the specification says of a run *)

(** A column [nc'] of the output, in [h'], against the column [nc] of the
    input, in [h], it was copied from: the same name, a vector that did
    not exist in [h], of the same type and length, and, unless the
    column is one of [w], [x], [y], [z], with the same contents. *)
Definition copy_col (h h' : heap) (nc nc' : string * loc) : Prop :=
  nc'.1 = nc.1 ∧ vecs h !! nc'.2 = None ∧
  option_Forall2 same_shape (vecs h !! nc.2) (vecs h' !! nc'.2) ∧
  (nc.1 ∉ wxyz → vecs h' !! nc'.2 = vecs h !! nc.2).

(** [out], in [h'], is a structural copy of the series [p] of [h]: a data
    frame of its own with the row count, the attributes and, column by
    column, the layout of [p]. *)
Definition structural_copy (h h' : heap) (p out : loc) : Prop :=
  ∃ f fo, frames h !! p = Some f ∧ frames h !! out = None ∧
    frames h' !! out = Some fo ∧
    row_names fo = row_names f ∧ attribs fo = attribs f ∧
    Forall2 (copy_col h h') (cols f) (cols fo).

(** The result of a driver on the series [l] of grid size [G]: a new
    series of grid size [G] shaped as the first of [l]. *)
Definition shape_preserved (h : heap) (l : list loc) (G : nat)
    (res : option loc * heap) : Prop :=
  ∃ out h' p0, res = (Some out, h') ∧ l !! 0 = Some p0 ∧
    is_qts h' G out = true ∧ structural_copy h h' p0 out.

(** The result of a driver is a data frame tagged as a quaternion time
    series, before the tags of a tibble and of a data frame. *)
Definition tagged_qts (res : option loc * heap) : Prop :=
  ∃ out h' fo, res = (Some out, h') ∧ frames h' !! out = Some fo ∧
    class_attr fo = ["qts"; "tbl_df"; "tbl"; "data.frame"].

(** The result of a driver on the one series [p]: a copy of [p], tagged,
    whose quaternion at every grid point is [close] to that of [p]. *)
Definition series_unchanged (close : Vector4d → Vector4d → Prop)
    (h : heap) (p : loc) (G : nat) (res : option loc * heap) : Prop :=
  ∃ out h', res = (Some out, h') ∧ structural_copy h h' p out ∧
    ∀ i, i < G →
      ∃ q q', quat_at h p i = Some q ∧ quat_at h' out i = Some q' ∧ close q' q.

(** Modelled from the spec: [gmean] and [gmedian] are defined in
    [squatSO3Utils], which is not among the sources.  Of a sample set of
    one quaternion the spec says that both return that sample unchanged,
    within floating tolerance: [close] stands for that tolerance. *)
Definition single_sample_identity (close : Vector4d → Vector4d → Prop)
    (agg : list VectorXd → Vector4d) : Prop :=
  ∀ q, close (agg [to_xd q]) q.

(** What a run that ended in [(r, h')] did after the deep copy left the
    store [h1] with [out] as the copy of the first series: it returned
    [out] or nothing, changed no data frame but the tags of [out], and
    no column but those [out] holds under [w], [x], [y] and [z]. *)
Definition wrote_only_wxyz (h1 : heap) (out : loc) (r : option loc) (h' : heap) : Prop :=
  ∃ fo, frames h1 !! out = Some fo ∧
    (r = None ∨ r = Some out) ∧
    (∀ p, p ≠ out → frames h' !! p = frames h1 !! p) ∧
    (∃ cl, frames h' !! out = Some (with_class cl fo)) ∧
    (∀ c, c ∉ written fo → vecs h' !! c = vecs h1 !! c) ∧
    (∀ k n c, cols fo !! k = Some (n, c) → n ∉ wxyz → vecs h' !! c = vecs h1 !! c).

(** The result of a driver on the series [l] of grid size [G]: a
    structural copy of the first of them whose quaternion at every grid
    point is the aggregate of the sample set gathered there, one
    quaternion from each series. *)
Definition aggregated_pointwise (agg : list VectorXd → Vector4d)
    (h : heap) (l : list loc) (G : nat) (res : option loc * heap) : Prop :=
  ∃ out h' p0, res = (Some out, h') ∧ l !! 0 = Some p0 ∧
    structural_copy h h' p0 out ∧
    ∀ i, i < G →
      ∃ qs, samples_at h l i = Some qs ∧ length qs = length l ∧
            quat_at h' out i = Some (agg qs).

(** ** More of what a run does *)

(** The data frame at [p] is in the store with all its columns. *)
Definition in_store (h : heap) (p : loc) : bool :=
  match frames h !! p with
  | Some f => forallb (λ nc, bool_decide (is_Some (vecs h !! nc.2))) (cols f)
  | None => false
  end.

(** The series at [p] has double columns [w], [x], [y] and [z] of at
    least [G] values. *)
Definition reaches (h : heap) (G : nat) (p : loc) : bool :=
  match frames h !! p with
  | Some f =>
      forallb (λ name, match col_values h f name with
                       | Some v => bool_decide (G ≤ length v)
                       | None => false
                       end) wxyz
  | None => false
  end.

(** The doubles a [NumericVector] made of the column [name] of [f] holds:
    those of the column, or what it is coerced to. *)
Definition numeric (h : heap) (f : frame) (name : string) : option (list D) :=
  c ← find_col name (cols f);
  col ← vecs h !! c;
  match col with
  | Real v => Some v
  | NonReal x => coerce x
  end.

(** There is nothing to read at index [i] of the column [name] of the
    series at [p]: no such column, no doubles in it, or fewer than [i + 1]. *)
Definition unreadable (h : heap) (p : loc) (name : string) (i : nat) : bool :=
  match frames h !! p with
  | Some f =>
      match numeric h f name with
      | Some v => bool_decide (length v ≤ i)
      | None => true
      end
  | None => true
  end.

(** The column at [c] holds as many doubles as [v0]: the first [i] of
    them given by [g], the others those of [v0]. *)
Definition col_state_from (h : heap) (c : loc) (v0 : list D) (i : nat)
    (g : nat → D) : Prop :=
  ∃ v, vecs h !! c = Some (Real v) ∧ length v = length v0 ∧
       (∀ k, k < i → v !! k = Some (g k)) ∧
       (∀ k, i ≤ k → v !! k = v0 !! k).

(** The result of a driver on a list whose first series, [p0], has [G]
    rows: the first copy, with the aggregate of the [nSamples] first
    series at every grid point below [G] and the quaternion of [p0] at
    every other. *)
Definition gathered_up_to (agg : list VectorXd → Vector4d) (h : heap)
    (l : list loc) (p0 : loc) (G : nat) (res : option loc * heap) : Prop :=
  ∃ h', res = (Some (length (frames h)), h') ∧
    (∀ i, i < G →
       quat_at h' (length (frames h)) i
       = Some (agg (sample h (take (to_uint (length l)) l) i))) ∧
    (∀ i, G ≤ i → quat_at h' (length (frames h)) i = quat_at h p0 i).

(** The number of columns of the data frame at [p]. *)
Definition n_cols (h : heap) (p : loc) : nat :=
  from_option (λ f, length (cols f)) 0 (frames h !! p).

(** A sample set as the aggregators expect it: [n] vectors of four
    components. *)
Definition full_sample_set (n : nat) (qs : list VectorXd) : Prop :=
  length qs = n ∧ Forall (λ v, length v = 4) qs.

(** What a driver returns, whatever it was given: a data frame [out] that
    did not exist before, tagged as a quaternion time series, with the row
    count, the attributes and the column names of the first series of the
    list, and columns that did not exist before, no two of them the same
    vector. *)
Definition fresh_tagged_copy (h : heap) (l : list loc) (out : loc) (h' : heap) : Prop :=
  ∃ p0 f0 fo, l !! 0 = Some p0 ∧ frames h !! p0 = Some f0 ∧
    frames h !! out = None ∧ frames h' !! out = Some fo ∧
    class_attr fo = qts_class ∧ row_names fo = row_names f0 ∧
    attribs fo = attribs f0 ∧ (cols fo).*1 = (cols f0).*1 ∧
    NoDup (cols fo).*2 ∧ Forall (λ c, vecs h !! c = None) (cols fo).*2.

(** The store a run ends in has one more data frame for every series of
    the list, and one more vector for every column of every series. *)
Definition copied_whole_list (h : heap) (l : list loc) (h' : heap) : Prop :=
  length (frames h') = length (frames h) + length l ∧
  length (vecs h') = length (vecs h) + sum_list (n_cols h <$> l).

(** The run on a first series without rows: the deep copy of the list,
    then the tags on the first copy, and nothing else. *)
Definition only_copied_and_tagged (h : heap) (l : list loc)
    (res : option loc * heap) : Prop :=
  ∃ cl h1 fo, Rcpp_clone l h = (Some cl, h1) ∧
    frames h1 !! length (frames h) = Some fo ∧
    res = (Some (length (frames h)),
           Heap (vecs h1)
                (<[length (frames h) := with_class qts_class fo]> (frames h1))).

End Rcpp.

(** ** A small sample

    Two series of grid size 2 that share their time column, with integers
    in the place of doubles, and an aggregator that returns the first
    quaternion of the sample set. *)

Definition ex_coerce (x : string) : option (list Z) := None.

(** Two memories: one in which what lies past the end of a list is taken
    for the first data frame of the store, one in which reading there
    stops the call. *)
Definition ex_stray (l : list loc) (j : nat) : option loc := Some 0.


Definition ex_first (qs : list (list Z)) : @Vector4d Z :=
  match qs with
  | (w :: x :: y :: z :: _) :: _ => V4 w x y z
  | _ => V4 0%Z 0%Z 0%Z 0%Z
  end.

Definition ex_store : @heap Z string :=
  Heap [Real [0; 10]%Z;
        Real [1; 0]%Z; Real [0; 1]%Z; Real [0; 0]%Z; Real [0; 0]%Z;
        Real [0; 0]%Z; Real [0; 0]%Z; Real [1; 0]%Z; Real [0; 1]%Z;
        NonReal "id"]
       [Frame [("time", 0); ("w", 1); ("x", 2); ("y", 3); ("z", 4)]
              2 ["qts"; "tbl_df"; "tbl"; "data.frame"] [];
        Frame [("time", 0); ("w", 5); ("x", 6); ("y", 7); ("z", 8); ("id", 9)]
              2 ["qts"; "tbl_df"; "tbl"; "data.frame"] []].

(** The sample with a third series, of three rows, with the second series
    cut short, and with a series without rows or quaternions; and an
    aggregator that differs from [ex_first] on the empty sample set. *)

Definition ex_long_store : @heap Z string :=
  Heap (vecs ex_store ++ [Real [1; 0; 5]%Z; Real [0; 1; 6]%Z;
                          Real [0; 0; 7]%Z; Real [0; 0; 8]%Z])
       (frames ex_store ++ [Frame [("w", 10); ("x", 11); ("y", 12); ("z", 13)]
                                  3 ["data.frame"] []]).

Definition ex_short_store : @heap Z string :=
  Heap (<[6 := Real [0%Z]]> (vecs ex_store)) (frames ex_store).

Definition ex_empty_store : @heap Z string :=
  Heap [Real []; NonReal "none"]
       [Frame [("time", 0); ("label", 1)] 0 ["data.frame"] []].

Definition ex_first_or_nines (qs : list (list Z)) : @Vector4d Z :=
  match qs with
  | [] => V4 9%Z 9%Z 9%Z 9%Z
  | _ => ex_first qs
  end.

(** * The aggregators, from the specification *)

Module Aggregator.

(** Modelled from the spec: [gmean] and [gmedian] are declared in
    [squatSO3Utils.h] and defined outside the sources.  The
    specification gives their shape: an iterative refinement on the
    manifold of rotations, built from the operations below on
    quaternions [Q], tangent vectors [T] and doubles [R]. *)
Class Geometry (R Q T : Type) : Type := {
  (** the representative, [q] or [-q], of a sample on the side of the
      current estimate (inner-product sign test) *)
  reconcile : Q → Q → Q;
  (** logarithmic map at the estimate, exponential map back *)
  log_map : Q → Q → T;
  exp_map : Q → T → Q;
  renormalize : Q → Q;
  (** the average of tangent vectors, plain and weighted *)
  average : list T → T;
  weighted_average : list (R * T) → T;
  (** geodesic distance and the weight it gives a sample, its inverse
      with a floor for a sample on the estimate *)
  distance : Q → Q → R;
  weight : R → R;
  (** the magnitude of a correction step, and its test against the
      tolerance *)
  magnitude : T → R;
  below : R → R → bool;
  (** the initial estimate *)
  initial : list Q → Q
}.

Section Refinement.

Context {R Q T : Type} {geometry : Geometry R Q T}.

(** The fixed tolerance and the iteration cap. *)
Variable tolerance : R.
Variable cap : nat.

(** Modelled from the spec: the state of a refinement, which is the
    estimate, the iterations done and the magnitude of the last
    correction step. *)
Record refinement : Type := Refinement {
  estimate : Q;
  iterations : nat;
  last_step : option R
}.

(** Modelled from the spec: one update of the mean: every
    sign-reconciled sample is mapped into the tangent space at the
    estimate, the tangent vectors are averaged, the average is pushed
    back through the exponential map and renormalized. *)
Definition mean_update (samples : list Q) (q : Q) : Q * R :=
  let t := average (map (λ s, log_map q (reconcile q s)) samples) in
  (renormalize (exp_map q t), magnitude t).

(** Modelled from the spec: one update of the median: the same with
    weights inversely proportional to the distance of each sample to
    the estimate. *)
Definition median_update (samples : list Q) (q : Q) : Q * R :=
  let t :=
    weighted_average
      (map (λ s, let s' := reconcile q s in
                 (weight (distance q s'), log_map q s')) samples) in
  (renormalize (exp_map q t), magnitude t).

(** Modelled from the spec: the refinement has converged when the
    magnitude of the correction step fell below the tolerance; it goes
    on while it has not and the cap is not reached. *)
Definition converged (s : refinement) : bool :=
  match last_step s with
  | Some e => below e tolerance
  | None => false
  end.

(** Modelled from the spec: the test of the loop. *)
Definition goes_on (s : refinement) : bool :=
  negb (converged s) && bool_decide (iterations s < cap).

(** Modelled from the spec: one iteration replaces the estimate and
    records the magnitude of the step. *)
Definition refine_once (update : Q → Q * R) (s : refinement) : refinement :=
  let '(q, e) := update (estimate s) in
  Refinement q (S (iterations s)) (Some e).

(** Modelled from the spec: the loop, run with fuel; [None] when the fuel
    runs out before the loop stops. *)
Fixpoint refine (update : Q → Q * R) (fuel : nat) (s : refinement)
    : option refinement :=
  if goes_on s
  then match fuel with
       | 0 => None
       | S fuel' => refine update fuel' (refine_once update s)
       end
  else Some s.

(** Modelled from the spec: [geometric_mean] refines the initial
    estimate. *)
Definition geometric_mean_run (fuel : nat) (samples : list Q) : option refinement :=
  refine (mean_update samples) fuel (Refinement (initial samples) 0 None).

(** Modelled from the spec: the result is the estimate the loop stops at. *)
Definition geometric_mean (fuel : nat) (samples : list Q) : option Q :=
  estimate <$> geometric_mean_run fuel samples.

(** Modelled from the spec: the median starts from the geometric mean. *)
Definition geometric_median_run (fuel : nat) (samples : list Q) : option refinement :=
  q0 ← geometric_mean fuel samples;
  refine (median_update samples) fuel (Refinement q0 0 None).

(** Modelled from the spec: the result is the estimate the loop stops at. *)
Definition geometric_median (fuel : nat) (samples : list Q) : option Q :=
  estimate <$> geometric_median_run fuel samples.

(** Modelled from the spec: a refinement that stopped the way the
    specification says, with the step below the tolerance or at the cap. *)
Definition stopped (s : refinement) : Prop :=
  iterations s ≤ cap ∧ (converged s = true ∨ iterations s = cap).

End Refinement.

End Aggregator.

(** ** Two small geometries

    Integers on a line in the place of rotations: the mean of [0] and
    [10] is reached in two steps; with an exponential map that overshoots
    the estimate swings between [0] and [10] for ever. *)

Definition ex_line : Aggregator.Geometry Z Z Z :=
  {| Aggregator.reconcile q s := s;
     Aggregator.log_map q s := (s - q)%Z;
     Aggregator.exp_map q t := (q + t)%Z;
     Aggregator.renormalize q := q;
     Aggregator.average ts := (foldr Z.add 0 ts / Z.of_nat (length ts))%Z;
     Aggregator.weighted_average wts :=
       (foldr Z.add 0 (map (λ wt, wt.1 * wt.2) wts)
        / foldr Z.add 0 (map fst wts))%Z;
     Aggregator.distance q s := Z.abs (s - q);
     Aggregator.weight d := 1%Z;
     Aggregator.magnitude t := Z.abs t;
     Aggregator.below e tol := (e <? tol)%Z;
     Aggregator.initial qs := hd 0%Z qs |}.

Definition ex_overshoot : Aggregator.Geometry Z Z Z :=
  {| Aggregator.reconcile q s := s;
     Aggregator.log_map q s := (s - q)%Z;
     Aggregator.exp_map q t := (q + 2 * t)%Z;
     Aggregator.renormalize q := q;
     Aggregator.average ts := (foldr Z.add 0 ts / Z.of_nat (length ts))%Z;
     Aggregator.weighted_average wts :=
       (foldr Z.add 0 (map (λ wt, wt.1 * wt.2) wts)
        / foldr Z.add 0 (map fst wts))%Z;
     Aggregator.distance q s := Z.abs (s - q);
     Aggregator.weight d := 1%Z;
     Aggregator.magnitude t := Z.abs t;
     Aggregator.below e tol := (e <? tol)%Z;
     Aggregator.initial qs := hd 0%Z qs |}.

(** * Properties *)

Create HintDb readonly discriminated.

Section Properties.

Context {D X : Type}.
Variable coerce : X → option (list D).
Variable stray : list loc → nat → option loc.

Local Open Scope rcpp_scope.

Local Abbreviation M := (@M D X).
Local Abbreviation heap := (@heap D X).
Local Abbreviation frame := (@frame X).
Local Abbreviation column := (@column D X).
Local Abbreviation Vector4d := (@Vector4d D).
Local Abbreviation VectorXd := (@VectorXd D).

(** ** Running a computation step by step *)

Lemma bind_inv {A B} (m : M A) (k : A → M B) h r h' :
  bind m k h = (r, h') →
  (∃ a h1, m h = (Some a, h1) ∧ k a h1 = (r, h')) ∨
  (m h = (None, h') ∧ r = None).
Proof.
  unfold bind. destruct (m h) as [[a|] h1]; intros E.
  - left. eauto.
  - right. by inversion E.
Qed.

Lemma bind_some {A B} (m : M A) (k : A → M B) h a h1 :
  m h = (Some a, h1) → bind m k h = k a h1.
Proof. unfold bind. by intros ->. Qed.

Lemma bind_none {A B} (m : M A) (k : A → M B) h h1 :
  m h = (None, h1) → bind m k h = (None, h1).
Proof. unfold bind. by intros ->. Qed.

Lemma lift_opt_inv {A} (o : option A) (h : heap) r h' :
  lift_opt o h = (r, h') → o = r ∧ h' = h.
Proof. by intros [= -> ->]. Qed.

(** ** Computations that leave the store alone *)

Lemma readonly_eq {A} (m : M A) h r h' :
  readonly m → m h = (r, h') → h' = h.
Proof. intros Hm E. specialize (Hm h). by rewrite E in Hm. Qed.

Lemma readonly_ret {A} (a : A) : readonly (ret a : M A).
Proof. by intros h. Qed.

Lemma readonly_throw {A} : readonly (throw : M A).
Proof. by intros h. Qed.

Lemma readonly_lift_opt {A} (o : option A) : readonly (lift_opt o : M A).
Proof. by intros h. Qed.

Lemma readonly_bind {A B} (m : M A) (k : A → M B) :
  readonly m → (∀ a, readonly (k a)) → readonly (bind m k).
Proof.
  intros Hm Hk h. unfold bind.
  destruct (m h) as [[a|] h1] eqn:E;
    apply (readonly_eq _ _ _ _ Hm) in E as ->; [apply Hk | done].
Qed.

Lemma readonly_get_frame p : readonly (get_frame p : M frame).
Proof. by intros h. Qed.

Lemma readonly_get_vec c : readonly (get_vec c : M column).
Proof. by intros h. Qed.

Lemma readonly_list_elt l j : readonly (list_elt stray l j : M loc).
Proof. by intros h. Qed.

Hint Resolve readonly_ret readonly_throw readonly_lift_opt readonly_get_frame
  readonly_get_vec readonly_list_elt : readonly.

Ltac readonly_tac :=
  repeat first
    [ apply readonly_bind; [| intros ?]
    | progress eauto with readonly
    | match goal with |- readonly (match ?x with _ => _ end) => destruct x end ].

Lemma readonly_nrows p : readonly (nrows p : M nat).
Proof. unfold nrows. readonly_tac. Qed.

Lemma readonly_column_by_name p name : readonly (column_by_name coerce p name).
Proof. unfold column_by_name. readonly_tac. Qed.

Lemma readonly_values nv : readonly (values nv : M (list D)).
Proof. unfold values. readonly_tac. Qed.

Hint Resolve readonly_nrows readonly_column_by_name readonly_values : readonly.

Lemma readonly_read_at nv i : readonly (read_at nv i : M D).
Proof. unfold read_at. readonly_tac. Qed.

Hint Resolve readonly_read_at : readonly.

Lemma readonly_for_loop {St} n start (body : nat → St → M St) s :
  (∀ i s', readonly (body i s')) → readonly (for_loop n start body s).
Proof.
  intros Hb. revert start s.
  induction n as [|n IH]; intros start s; simpl; readonly_tac.
Qed.

(** Every step of a loop keeps an invariant of the store: so does the
    loop, however it ends. *)
Lemma for_loop_inv {St} (I : heap → Prop) n start (body : nat → St → M St) s h r h' :
  (∀ i s1 h1 r1 h2, I h1 → body i s1 h1 = (r1, h2) → I h2) →
  I h → for_loop n start body s h = (r, h') → I h'.
Proof.
  intros Hb. revert start s h.
  induction n as [|n IH]; intros start s h HI E; simpl in E.
  - by inversion E; subst.
  - apply bind_inv in E as [(s1 & h1 & E1 & E) | [E1 _]]; eauto.
Qed.

(** ** Stores that grow *)

Lemma grows_refl (h : heap) : grows h h.
Proof. by split. Qed.

Lemma grows_trans (h1 h2 h3 : heap) : grows h1 h2 → grows h2 h3 → grows h1 h3.
Proof. intros [??] [??]. split; by etrans. Qed.

Lemma grows_preserved (h h' : heap) : grows h h' → preserved h h'.
Proof.
  intros [Hv Hf]. split; intros i x Hi; by eapply prefix_lookup_Some.
Qed.

Lemma preserved_refl (h : heap) : preserved h h.
Proof. by split. Qed.

Lemma preserved_trans (h1 h2 h3 : heap) : preserved h1 h2 → preserved h2 h3 → preserved h1 h3.
Proof. intros [??] [??]. split; eauto. Qed.

(** ** The deep copy *)

Lemma clone_cols_grows cs (h : heap) r h' :
  clone_cols cs h = (r, h') →
  frames h' = frames h ∧ vecs h `prefix_of` vecs h' ∧
  ∀ cs', r = Some cs' →
    cs'.*1 = cs.*1 ∧ cs'.*2 = seq (length (vecs h)) (length cs) ∧
    length (vecs h') = length (vecs h) + length cs.
Proof.
  revert h r h'. induction cs as [|[n c] cs IH]; intros h r h' E; simpl in E.
  - inversion E; subst. split_and!; [done..|].
    intros ? [= <-]. simpl. split_and!; [done..|lia].
  - apply bind_inv in E as [(v & ha & E1 & E) | [E1 ->]];
      unfold get_vec in E1; inversion E1; subst; clear E1; [|done].
    apply bind_inv in E as [(c' & hb & E1 & E) | [E1 _]];
      unfold alloc_vec in E1; inversion E1; subst; clear E1.
    apply bind_inv in E as [(cs1 & hc & E1 & E) | [E1 ->]];
      apply IH in E1 as (Hf & Hp & Hs); simpl in *.
    + inversion E; subst; clear E.
      destruct (Hs _ eq_refl) as (Hn & Hl & Hlen).
      rewrite length_app in Hl, Hlen. simpl in *.
      split_and!; [done|by etrans; [apply prefix_app_r|]|].
      intros ? [= <-]. rewrite !fmap_cons, Hn, Hl. simpl.
      split_and!; [done| |lia]. f_equal. f_equal. lia.
    + split_and!; [done|by etrans; [apply prefix_app_r|]|done].
Qed.

Lemma copied_col_grows (h h1 h2 : heap) nc nc' :
  vecs h `prefix_of` vecs h1 →
  is_Some (vecs h !! nc.2) →
  copied_col h1 h2 nc nc' → copied_col h h2 nc nc'.
Proof.
  intros Hp1 [x Hx] (Hn & Hl & _ & Hc). split_and!; [done| |by exists x|].
  - apply prefix_length in Hp1. lia.
  - rewrite Hc, Hx. by eapply prefix_lookup_Some.
Qed.

Lemma copied_col_later (h h1 h2 : heap) nc nc' :
  vecs h1 `prefix_of` vecs h2 →
  copied_col h h1 nc nc' → copied_col h h2 nc nc'.
Proof.
  intros Hp (Hn & Hl & [x Hx] & Hc). split_and!; [done..|by exists x|].
  rewrite Hx in Hc |- *. by eapply prefix_lookup_Some.
Qed.

Lemma clone_cols_ok cs (h : heap) :
  Forall (λ nc, is_Some (vecs h !! nc.2)) cs →
  ∃ cs' h', clone_cols cs h = (Some cs', h') ∧
    Forall2 (copied_col h h') cs cs'.
Proof.
  revert h. induction cs as [|[n c] cs IH]; intros h Hcs; simpl.
  - eexists _, _. split; [done|constructor].
  - apply Forall_cons in Hcs as [[v Hv] Hcs]. simpl in Hv.
    erewrite bind_some by (unfold get_vec; by rewrite Hv).
    erewrite bind_some by done.
    set (h1 := Heap (vecs h ++ [v]) (frames h)).
    assert (Hpre : vecs h `prefix_of` vecs h1) by apply prefix_app_r, reflexivity.
    destruct (IH h1) as (cs' & h2 & E & HF).
    { eapply Forall_impl; [done|]. intros nc [x Hx]. exists x.
      by eapply prefix_lookup_Some. }
    erewrite bind_some by done.
    eexists _, _. split; [done|].
    apply clone_cols_grows in E as (_ & Hp2 & _).
    constructor.
    + split_and!; simpl; [done..|by exists v|].
      rewrite Hv. eapply prefix_lookup_Some; [|done].
      subst h1; simpl. by rewrite list_lookup_middle.
    + clear -HF Hcs Hpre.
      induction HF as [|nc nc' l k H1 HF IH']; constructor;
        apply Forall_cons in Hcs as [Hnc Hcs]; [|by apply IH'].
      eapply copied_col_grows; [exact Hpre|done..].
Qed.

Lemma clone_frame_grows p (h : heap) r h' :
  clone_frame p h = (r, h') →
  grows h h' ∧
  ∀ p', r = Some p' →
    ∃ f cs', frames h !! p = Some f ∧ p' = length (frames h) ∧
      frames h' = frames h ++ [Frame cs' (row_names f) (class_attr f) (attribs f)] ∧
      cs'.*1 = (cols f).*1 ∧
      cs'.*2 = seq (length (vecs h)) (length (cols f)).
Proof.
  unfold clone_frame. intros E.
  apply bind_inv in E as [(f & ha & E1 & E) | [E1 ->]];
    unfold get_frame in E1; inversion E1; subst; clear E1;
    [|split; [apply grows_refl|done]].
  apply bind_inv in E as [(cs' & hb & E1 & E) | [E1 ->]];
    apply clone_cols_grows in E1 as (Hf & Hp & Hs).
  - unfold alloc_frame in E. inversion E; subst; clear E.
    destruct (Hs _ eq_refl) as (Hn & Hl & _). split.
    + split; simpl; [done|]. rewrite Hf. by apply prefix_app_r.
    + intros ? [= <-]. exists f, cs'. simpl. by rewrite Hf.
  - split; [|done]. split; [done|]. by rewrite Hf.
Qed.

Lemma clone_frame_ok p (h : heap) f :
  frames h !! p = Some f →
  Forall (λ nc, is_Some (vecs h !! nc.2)) (cols f) →
  ∃ h' fo, clone_frame p h = (Some (length (frames h)), h') ∧
    frames h' = frames h ++ [fo] ∧ deep_copy h h' f fo.
Proof.
  intros Hf Hcs. unfold clone_frame.
  erewrite bind_some by (unfold get_frame; by rewrite Hf).
  destruct (clone_cols_ok _ _ Hcs) as (cs' & h1 & E & HF).
  erewrite bind_some by done. unfold alloc_frame.
  apply clone_cols_grows in E as (Hfr & Hp & Hs).
  destruct (Hs _ eq_refl) as (Hn & Hl & _).
  rewrite Hfr. eexists _, _. split; [done|]. simpl. split; [done|].
  split_and!; simpl; [done..| |done].
  rewrite Hl. apply NoDup_seq.
Qed.

Lemma Rcpp_clone_grows l (h : heap) r h' :
  Rcpp_clone l h = (r, h') →
  grows h h' ∧
  ∀ cl, r = Some cl →
    length cl = length l ∧
    ∀ out, cl !! 0 = Some out →
      ∃ p f fo, l !! 0 = Some p ∧ frames h !! p = Some f ∧
        out = length (frames h) ∧ frames h' !! out = Some fo ∧
        row_names fo = row_names f ∧ class_attr fo = class_attr f ∧
        attribs fo = attribs f ∧
        (cols fo).*1 = (cols f).*1 ∧
        (cols fo).*2 = seq (length (vecs h)) (length (cols f)).
Proof.
  revert h r h'. induction l as [|p l IH]; intros h r h' E; simpl in E.
  - inversion E; subst. split; [apply grows_refl|]. by intros ? [= <-].
  - apply bind_inv in E as [(p' & ha & E1 & E) | [E1 ->]];
      apply clone_frame_grows in E1 as (Hg & Hp); [|done].
    destruct (Hp _ eq_refl) as (f & cs' & Hf & -> & Hfr & Hn & Hl).
    apply bind_inv in E as [(cl & hb & E1 & E) | [E1 ->]];
      apply IH in E1 as (Hg' & Hcl).
    + inversion E; subst; clear E. split; [by eapply grows_trans|].
      intros ? [= <-]. destruct (Hcl _ eq_refl) as (Hlen & _).
      split; [simpl; by rewrite Hlen|]. intros out [= <-].
      assert (frames h' !! length (frames h)
              = Some (Frame cs' (row_names f) (class_attr f) (attribs f))) as Hout.
      { destruct Hg' as [_ Hg']. eapply prefix_lookup_Some; [|done].
        rewrite Hfr. by rewrite list_lookup_middle. }
      by eexists p, f, _.
    + split; [by eapply grows_trans|done].
Qed.

Lemma clonable_grows (h h' : heap) p : grows h h' → clonable h p → clonable h' p.
Proof.
  intros [Hv Hf] (f & Hp & Hcs). exists f. split; [by eapply prefix_lookup_Some|].
  eapply Forall_impl; [done|]. intros nc [x Hx].
  exists x. by eapply prefix_lookup_Some.
Qed.

(** The copy of a list of data frames that all exist returns, and its
    first element is a deep copy of the first data frame. *)
Lemma Rcpp_clone_ok l (h : heap) :
  Forall (clonable h) l →
  ∃ cl h', Rcpp_clone l h = (Some cl, h') ∧
    ∀ p f, l !! 0 = Some p → frames h !! p = Some f →
      ∃ fo, cl !! 0 = Some (length (frames h)) ∧
        frames h' !! length (frames h) = Some fo ∧ deep_copy h h' f fo.
Proof.
  revert h. induction l as [|p l IH]; intros h Hl; simpl.
  - eexists _, _. split; [done|]. by intros ?? [=].
  - apply Forall_cons in Hl as [(f & Hf & Hcs) Hl].
    destruct (clone_frame_ok _ _ _ Hf Hcs) as (h1 & fo & E & Hfr & Hdc).
    erewrite bind_some by done.
    pose proof (clone_frame_grows _ _ _ _ E) as [Hg _].
    destruct (IH h1) as (cl & h2 & E2 & _).
    { eapply Forall_impl; [done|]. intros q. by apply clonable_grows. }
    erewrite bind_some by done.
    eexists _, _. split; [done|].
    intros ? f' [= <-] Hf'. assert (f' = f) as -> by congruence.
    apply Rcpp_clone_grows in E2 as [[Hv2 Hf2] _].
    exists fo. split_and!; [done| |].
    + eapply prefix_lookup_Some; [|done]. rewrite Hfr. by rewrite list_lookup_middle.
    + destruct Hdc as (? & ? & ? & ? & HF). split_and!; [done..|].
      eapply Forall2_impl; [done|]. intros nc nc'. by apply copied_col_later.
Qed.

(** ** What the writes touch *)

Lemma same_shape_refl (a : column) : same_shape a a.
Proof. by destruct a. Qed.

Lemma same_shape_trans (a b c : column) :
  same_shape a b → same_shape b c → same_shape a c.
Proof. destruct a, b, c; simpl; try done; congruence. Qed.

Lemma option_same_shape_refl (a : option column) : option_Forall2 same_shape a a.
Proof. destruct a; constructor. apply same_shape_refl. Qed.

Lemma touched_only_refl W (h : heap) : touched_only W h h.
Proof. split; [done|]. intros c. split; [done|apply option_same_shape_refl]. Qed.

Lemma touched_only_trans W (h1 h2 h3 : heap) :
  touched_only W h1 h2 → touched_only W h2 h3 → touched_only W h1 h3.
Proof.
  intros [Hf1 H1] [Hf2 H2]. split; [congruence|]. intros c.
  destruct (H1 c) as [Ha Hb], (H2 c) as [Hc Hd]. split.
  - intros Hn. by rewrite Hc, Ha.
  - destruct Hb; inversion Hd; subst; constructor. by eapply same_shape_trans.
Qed.

Lemma values_inv nv (h : heap) r h' :
  values nv h = (r, h') →
  h' = h ∧ ∀ vs c, r = Some vs → nv = Shared c → vecs h !! c = Some (Real vs).
Proof.
  intros E. split; [by eapply readonly_eq; [apply readonly_values|]|].
  intros vs c -> ->. simpl in E. unfold bind, get_vec in E.
  destruct (vecs h !! c) as [[v|x]|]; by inversion E.
Qed.

Lemma write_at_touched W nv i d (h : heap) r h' :
  (∀ c, nv = Shared c → c ∈ W) →
  write_at nv i d h = (r, h') → touched_only W h h'.
Proof.
  intros HW E. unfold write_at in E.
  apply bind_inv in E as [(vs & ha & E1 & E) | [E1 ->]];
    apply values_inv in E1 as [-> Hvs]; [|apply touched_only_refl].
  destruct (decide (i < length vs)); [|inversion E; apply touched_only_refl].
  destruct nv as [c|v]; [|inversion E; apply touched_only_refl].
  unfold set_vec in E. inversion E; subst; clear E.
  specialize (Hvs _ _ eq_refl eq_refl). specialize (HW _ eq_refl).
  split; [done|]. intros c'; simpl. split.
  - intros Hn. apply list_lookup_insert_ne. by intros ->.
  - destruct (decide (c = c')) as [<-|Hne].
    + rewrite Hvs, list_lookup_insert_eq by by eapply lookup_lt_Some.
      constructor. simpl. by rewrite length_insert.
    + rewrite list_lookup_insert_ne by done. apply option_same_shape_refl.
Qed.

Lemma column_by_name_inv p name (h : heap) r h' :
  column_by_name coerce p name h = (r, h') →
  h' = h ∧ ∀ c, r = Some (Shared c) →
    ∃ f, frames h !! p = Some f ∧ find_col name (cols f) = Some c.
Proof.
  intros E. split; [by eapply readonly_eq; [apply readonly_column_by_name|]|].
  intros c ->. unfold column_by_name, bind, get_frame, lift_opt, get_vec in E.
  destruct (frames h !! p) as [f|]; [|done]. exists f. split; [done|].
  destruct (find_col name (cols f)) as [c'|]; [|done].
  destruct (vecs h !! c') as [[v|x]|]; [| |done].
  - by inversion E.
  - destruct (coerce x); by inversion E.
Qed.

Ltac in_wxyz :=
  unfold wxyz; repeat first [apply list_elem_of_here | apply list_elem_of_further].

Lemma written_elem (f : frame) name c :
  name ∈ wxyz → find_col name (cols f) = Some c → c ∈ written f.
Proof. intros Hn Hc. unfold written. apply list_elem_of_omap. eauto. Qed.

Lemma nrows_inv p (h : heap) r h' :
  nrows p h = (r, h') → h' = h ∧ r = row_names <$> frames h !! p.
Proof.
  unfold nrows, bind, get_frame.
  destruct (frames h !! p); by intros [= <- <-].
Qed.

(** ** Any run of a driver *)

(** The two drivers are one text: what is proved of [mean_qts_impl] for
    every aggregator holds of [median_qts_impl]. *)
Lemma median_as_mean (agg : list VectorXd → Vector4d) :
  median_qts_impl coerce stray agg = mean_qts_impl coerce stray agg.
Proof. reflexivity. Qed.

(** Inside a list [list_elt] reads the element. *)
Lemma elt_in_range l j p : l !! j = Some p → elt stray l j = Some p.
Proof. unfold elt. by intros ->. Qed.

Lemma elt_first l p : 0 < length l → elt stray l 0 = Some p → l !! 0 = Some p.
Proof. destruct l; simpl; [lia|done]. Qed.

(** Whatever the list and the store, a run is a deep copy of the list
    followed by writes into the columns [w], [x], [y] and [z] of the
    data frame the access to element 0 of the copy hands out ([out]: the
    first copy, when the list has one), and, when nothing threw, by the
    tagging of that data frame. *)
Lemma mean_qts_impl_run (agg : list VectorXd → Vector4d) l (h : heap) r h' :
  mean_qts_impl coerce stray agg l h = (r, h') →
  ∃ rc h1, Rcpp_clone l h = (rc, h1) ∧
    ((r = None ∧ h' = h1) ∨
     ∃ cl out fo, rc = Some cl ∧ elt stray cl 0 = Some out ∧
       frames h1 !! out = Some fo ∧
       touched_only (written fo) h1 (Heap (vecs h') (frames h1)) ∧
       ((r = None ∧ frames h' = frames h1) ∨
        (r = Some out ∧
         frames h' = <[out := with_class qts_class fo]> (frames h1)))).
Proof.
  unfold mean_qts_impl. intros E.
  apply bind_inv in E as [(cl & h1 & Ecl & E) | [Ecl ->]];
    [exists (Some cl), h1 | exists None, h']; (split; [exact Ecl|]); [|by left].
  apply bind_inv in E as [(out & ha & E1 & E) | [E1 ->]];
    apply lift_opt_inv in E1 as [Hout ->]; [|by left].
  apply bind_inv in E as [(nGrid & ha & E1 & E) | [E1 ->]];
    apply nrows_inv in E1 as [-> Hn];
    destruct (frames h1 !! out) as [fo|] eqn:Hfo; try done; [|by left].
  injection Hn as ->.
  assert (Hwxyz : ∀ name (nv : @NumericVector D) (ha : heap),
    name ∈ wxyz → frames ha = frames h1 →
    (∀ c, Some nv = Some (Shared c) →
       ∃ f, frames ha !! out = Some f ∧ find_col name (cols f) = Some c) →
    ∀ c, nv = Shared c → c ∈ written fo).
  { intros name nv ha Hname Hfr Hc c ->.
    destruct (Hc c eq_refl) as (f & Hf & Hfind).
    rewrite Hfr, Hfo in Hf. injection Hf as <-. by eapply written_elem. }
  match type of E with
  | bind (for_loop _ _ ?body _) _ _ = _ =>
      assert (Hbody : ∀ i s1 (ha : heap) r1 hb,
        touched_only (written fo) h1 ha → body i s1 ha = (r1, hb) →
        touched_only (written fo) h1 hb)
  end.
  { intros i s1 ha r1 hb HI Eb. cbv beta in Eb.
    apply bind_inv in Eb as [(qs & hx & Ein & Eb) | [Ein ->]];
      (apply readonly_eq in Ein as ->;
       [|apply readonly_for_loop; intros; readonly_tac]); [|done].
    apply bind_inv in Eb as [(wV & hx & Ec & Eb) | [Ec ->]];
      apply column_by_name_inv in Ec as [-> Hw]; [|done].
    apply bind_inv in Eb as [(xV & hx & Ec & Eb) | [Ec ->]];
      apply column_by_name_inv in Ec as [-> Hx]; [|done].
    apply bind_inv in Eb as [(yV & hx & Ec & Eb) | [Ec ->]];
      apply column_by_name_inv in Ec as [-> Hy]; [|done].
    apply bind_inv in Eb as [(zV & hx & Ec & Eb) | [Ec ->]];
      apply column_by_name_inv in Ec as [-> Hz]; [|done].
    pose proof (proj1 HI) as Hfr.
    pose proof (Hwxyz "w" _ _ ltac:(in_wxyz) Hfr Hw) as Hw'.
    pose proof (Hwxyz "x" _ _ ltac:(in_wxyz) Hfr Hx) as Hx'.
    pose proof (Hwxyz "y" _ _ ltac:(in_wxyz) Hfr Hy) as Hy'.
    pose proof (Hwxyz "z" _ _ ltac:(in_wxyz) Hfr Hz) as Hz'.
    apply bind_inv in Eb as [([] & h2 & Ew & Eb) | [Ew ->]];
      apply (write_at_touched _ _ _ _ _ _ _ Hw') in Ew;
      pose proof (touched_only_trans _ _ _ _ HI Ew) as HI2; [|done].
    apply bind_inv in Eb as [([] & h3 & Ew3 & Eb) | [Ew3 ->]];
      apply (write_at_touched _ _ _ _ _ _ _ Hx') in Ew3;
      pose proof (touched_only_trans _ _ _ _ HI2 Ew3) as HI3; [|done].
    apply bind_inv in Eb as [([] & h4 & Ew4 & Eb) | [Ew4 ->]];
      apply (write_at_touched _ _ _ _ _ _ _ Hy') in Ew4;
      pose proof (touched_only_trans _ _ _ _ HI3 Ew4) as HI4; [|done].
    apply bind_inv in Eb as [([] & h5 & Ew5 & Eb) | [Ew5 ->]];
      apply (write_at_touched _ _ _ _ _ _ _ Hz') in Ew5;
      pose proof (touched_only_trans _ _ _ _ HI4 Ew5) as HI5; [|done].
    by injection Eb as <- <-. }
  right. exists cl, out, fo. do 3 (split; [done|]).
  apply bind_inv in E as [(qs & hb & El & E) | [El ->]];
    apply (for_loop_inv (touched_only (written fo) h1)) in El;
    try exact Hbody; try apply touched_only_refl;
    destruct El as [Hfr Hv].
  - unfold bind, set_class in E. rewrite Hfr, Hfo in E.
    injection E as <- <-. split; [by split|by right].
  - split; [by split|by left].
Qed.

(** ** Runs on quaternion time series *)

(** A loop whose every step returns and re-establishes the invariant
    returns, with the invariant. *)
Lemma for_loop_total {St} (I : nat → St → heap → Prop) n start
    (body : nat → St → M St) s h :
  (∀ i s1 h1, start ≤ i < start + n → I i s1 h1 →
     ∃ s2 h2, body i s1 h1 = (Some s2, h2) ∧ I (S i) s2 h2) →
  I start s h →
  ∃ s' h', for_loop n start body s h = (Some s', h') ∧ I (start + n) s' h'.
Proof.
  revert start s h. induction n as [|n IH]; intros start s h Hb HI; simpl.
  - exists s, h. by rewrite Nat.add_0_r.
  - destruct (Hb start s h) as (s2 & h2 & E & HI2); [lia|done|].
    erewrite bind_some by done.
    destruct (IH (S start) s2 h2) as (s' & h' & E' & HI'); [|done|].
    { intros i s1 h1 Hi. apply Hb. lia. }
    exists s', h'. split; [done|]. by replace (start + S n) with (S start + n) by lia.
Qed.

Lemma find_col_elem name (cs : list (string * loc)) c :
  find_col name cs = Some c → c ∈ cs.*2.
Proof.
  induction cs as [|[n c'] cs IH]; simpl; [done|].
  destruct (decide (n = name)).
  - intros [= ->]. apply list_elem_of_here.
  - intros Hc. apply list_elem_of_further. by apply IH.
Qed.

Lemma find_col_inj (cs : list (string * loc)) n1 n2 c :
  NoDup cs.*2 → find_col n1 cs = Some c → find_col n2 cs = Some c → n1 = n2.
Proof.
  induction cs as [|[n c'] cs IH]; simpl; [done|].
  intros [Hnin Hnd]%NoDup_cons.
  destruct (decide (n = n1)) as [E1|N1], (decide (n = n2)) as [E2|N2];
    [congruence| | |by apply IH].
  - intros [= ->] Hc%find_col_elem. done.
  - intros Hc%find_col_elem [= ->]. done.
Qed.

Lemma find_col_copy (h h1 : heap) cs cs' name c :
  Forall2 (copied_col h h1) cs cs' → find_col name cs = Some c →
  ∃ c', find_col name cs' = Some c' ∧ length (vecs h) ≤ c' ∧
        vecs h1 !! c' = vecs h !! c.
Proof.
  induction 1 as [|nc nc' cs cs' (Hn & Hl & _ & Hc) HF IH]; simpl; [done|].
  destruct nc as [n c0], nc' as [n' c0']; simpl in *. subst n'.
  destruct (decide (n = name)); [|done].
  intros [= ->]. eauto.
Qed.

Lemma col_values_Some (h : heap) (f : frame) name c v :
  find_col name (cols f) = Some c → vecs h !! c = Some (Real v) →
  col_values h f name = Some v.
Proof. unfold col_values. intros -> Hv. simpl. by rewrite Hv. Qed.

Lemma col_values_inv (h : heap) (f : frame) name v :
  col_values h f name = Some v →
  ∃ c, find_col name (cols f) = Some c ∧ vecs h !! c = Some (Real v).
Proof.
  unfold col_values. destruct (find_col name (cols f)) as [c|]; [|done]. simpl.
  destruct (vecs h !! c) as [[v'|x]|] eqn:Hc; simpl; [|done..].
  intros [= ->]. by exists c.
Qed.

Lemma quat_at_cols (h : heap) p f i cw cx cy cz vw vx vy vz w x y z :
  frames h !! p = Some f →
  find_col "w" (cols f) = Some cw → find_col "x" (cols f) = Some cx →
  find_col "y" (cols f) = Some cy → find_col "z" (cols f) = Some cz →
  vecs h !! cw = Some (Real vw) → vecs h !! cx = Some (Real vx) →
  vecs h !! cy = Some (Real vy) → vecs h !! cz = Some (Real vz) →
  vw !! i = Some w → vx !! i = Some x → vy !! i = Some y → vz !! i = Some z →
  quat_at h p i = Some (V4 w x y z).
Proof.
  intros Hf Hfw Hfx Hfy Hfz Hvw Hvx Hvy Hvz Hw Hx Hy Hz.
  unfold quat_at. rewrite Hf. simpl.
  rewrite (col_values_Some _ _ _ _ _ Hfw Hvw), (col_values_Some _ _ _ _ _ Hfx Hvx),
    (col_values_Some _ _ _ _ _ Hfy Hvy), (col_values_Some _ _ _ _ _ Hfz Hvz).
  simpl. by rewrite Hw, Hx, Hy, Hz.
Qed.

Lemma is_qts_inv (h : heap) G p :
  is_qts h G p = true →
  ∃ f, frames h !! p = Some f ∧ row_names f = G ∧
    Forall (λ nc, is_Some (vecs h !! nc.2)) (cols f) ∧
    ∀ name, name ∈ wxyz →
      ∃ c v, find_col name (cols f) = Some c ∧
             vecs h !! c = Some (Real v) ∧ length v = G.
Proof.
  unfold is_qts. destruct (frames h !! p) as [f|]; [|done].
  intros [[HG Hcs]%andb_prop Hw]%andb_prop. exists f.
  apply bool_decide_eq_true in HG.
  split_and!; [done..| |].
  - rewrite forallb_forall in Hcs. apply Forall_forall. intros nc Hnc.
    apply list_elem_of_In, Hcs in Hnc. by apply bool_decide_eq_true in Hnc.
  - intros name Hname. rewrite forallb_forall in Hw.
    apply list_elem_of_In, Hw in Hname. unfold real_col in Hname.
    destruct (col_values h f name) as [v|] eqn:Hv; [|done].
    apply bool_decide_eq_true in Hname.
    apply col_values_inv in Hv as (c & ? & ?). eauto.
Qed.

Lemma is_qts_clonable (h : heap) G p : is_qts h G p = true → clonable h p.
Proof. intros (f & ? & ? & ? & _)%is_qts_inv. by exists f. Qed.

Lemma column_by_name_real (h : heap) p f name c v :
  frames h !! p = Some f → find_col name (cols f) = Some c →
  vecs h !! c = Some (Real v) →
  column_by_name coerce p name h = (Some (Shared c), h).
Proof.
  intros Hf Hc Hv. unfold column_by_name, bind, get_frame, lift_opt, get_vec.
  by rewrite Hf, Hc, Hv.
Qed.

Lemma read_at_shared (h : heap) c v i d :
  vecs h !! c = Some (Real v) → v !! i = Some d →
  read_at (Shared c) i h = (Some d, h).
Proof.
  intros Hv Hd. unfold read_at, values, bind, get_vec, lift_opt, ret.
  by rewrite Hv, Hd.
Qed.

Lemma write_at_shared (h : heap) c v i d :
  vecs h !! c = Some (Real v) → i < length v →
  write_at (Shared c) i d h
  = (Some tt, Heap (<[c := Real (<[i := d]> v)]> (vecs h)) (frames h)).
Proof.
  intros Hv Hi. unfold write_at, values, bind, get_vec, ret.
  rewrite Hv. by rewrite decide_True by done.
Qed.

Lemma list_elt_some (h : heap) l j p :
  l !! j = Some p → list_elt stray l j h = (Some p, h).
Proof. intros Hp. unfold list_elt, elt, lift_opt. by rewrite Hp. Qed.

(** Reading the quaternion at [i] of one series, in a later store. *)
Lemma sample_read (h ha : heap) G p i :
  is_qts h G p = true → preserved h ha → i < G →
  ∃ cw cx cy cz w x y z,
    column_by_name coerce p "w" ha = (Some (Shared cw), ha) ∧
    column_by_name coerce p "x" ha = (Some (Shared cx), ha) ∧
    column_by_name coerce p "y" ha = (Some (Shared cy), ha) ∧
    column_by_name coerce p "z" ha = (Some (Shared cz), ha) ∧
    read_at (Shared cw) i ha = (Some w, ha) ∧
    read_at (Shared cx) i ha = (Some x, ha) ∧
    read_at (Shared cy) i ha = (Some y, ha) ∧
    read_at (Shared cz) i ha = (Some z, ha) ∧
    quat_at h p i = Some (V4 w x y z).
Proof.
  intros (f & Hf & _ & _ & Hcols)%is_qts_inv [Hpv Hpf] Hi.
  destruct (Hcols "w" ltac:(in_wxyz)) as (cw & vw & Hfw & Hvw & Hlw).
  destruct (Hcols "x" ltac:(in_wxyz)) as (cx & vx & Hfx & Hvx & Hlx).
  destruct (Hcols "y" ltac:(in_wxyz)) as (cy & vy & Hfy & Hvy & Hly).
  destruct (Hcols "z" ltac:(in_wxyz)) as (cz & vz & Hfz & Hvz & Hlz).
  destruct (lookup_lt_is_Some_2 vw i) as [w Hw]; [lia|].
  destruct (lookup_lt_is_Some_2 vx i) as [x Hx]; [lia|].
  destruct (lookup_lt_is_Some_2 vy i) as [y Hy]; [lia|].
  destruct (lookup_lt_is_Some_2 vz i) as [z Hz]; [lia|].
  exists cw, cx, cy, cz, w, x, y, z.
  split_and!; try (eapply column_by_name_real; eauto; fail);
    try (eapply read_at_shared; eauto; fail).
  by eapply quat_at_cols.
Qed.

(** The inner loop of a driver, run over the first [n] series of the
    list, fills [qValues] with their sample set. *)
Lemma gather_total (h ha : heap) G l n i (qv : list VectorXd) :
  Forall (λ p, is_qts h G p = true) l → preserved h ha → i < G →
  n ≤ length l → length qv = n →
  samples_at h (take n l) i = Some (sample h (take n l) i) ∧
  length (sample h (take n l) i) = n ∧
  for_loop n 0 (λ j qValues,
    tmpValue <- list_elt stray l j ;;
    wValues <- column_by_name coerce tmpValue "w" ;;
    xValues <- column_by_name coerce tmpValue "x" ;;
    yValues <- column_by_name coerce tmpValue "y" ;;
    zValues <- column_by_name coerce tmpValue "z" ;;
    w <- read_at wValues i ;;
    x <- read_at xValues i ;;
    y <- read_at yValues i ;;
    z <- read_at zValues i ;;
    let avgQValue := V4 w x y z in
    ret (<[j := to_xd avgQValue]> qValues)) qv ha
  = (Some (sample h (take n l) i), ha).
Proof.
  intros Hl Hpres Hi Hn Hlen.
  match goal with
  | |- _ ∧ _ ∧ for_loop _ _ ?body _ _ = _ =>
      destruct (for_loop_total
        (λ j (qv' : list VectorXd) (hx : heap),
           hx = ha ∧ length qv' = n ∧
           ∀ k p, k < j → l !! k = Some p →
             ∃ q, quat_at h p i = Some q ∧ qv' !! k = Some (to_xd q))
        n 0 body qv ha) as (qs & hb & E & -> & Hlq & Hqs)
  end.
  - intros j qv' hx [_ Hj] (-> & Hlen' & Hinv). simpl in Hj.
    destruct (lookup_lt_is_Some_2 l j) as [p Hp]; [lia|].
    rewrite Forall_forall in Hl.
    destruct (sample_read h ha G p i) as
      (cw & cx & cy & cz & w & x & y & z & Ew & Ex & Ey & Ez & Rw & Rx & Ry & Rz & Hq);
      [apply Hl; by eapply list_elem_of_lookup_2|done..|].
    erewrite bind_some by (apply list_elt_some; exact Hp).
    erewrite bind_some by done. erewrite bind_some by done.
    erewrite bind_some by done. erewrite bind_some by done.
    erewrite bind_some by done. erewrite bind_some by done.
    erewrite bind_some by done. erewrite bind_some by done.
    eexists _, _. split; [done|]. split_and!; [done|by rewrite length_insert|].
    intros k p' Hk Hp'. destruct (decide (k = j)) as [->|Hne].
    + assert (p' = p) as -> by congruence. exists (V4 w x y z).
      split; [done|]. apply list_lookup_insert_eq. lia.
    + rewrite list_lookup_insert_ne by done. apply Hinv; [lia|done].
  - split_and!; [done..|lia].
  - assert (samples_at h (take n l) i = Some qs) as Hs.
    { apply mapM_Some_2, Forall2_same_length_lookup_2;
        [by rewrite length_take_le|].
      intros k p q [Hp Hk]%lookup_take_Some Hq. simpl in Hqs.
      destruct (Hqs k p) as (q' & Hq' & Hk'); [done..|].
      rewrite Hq'. simpl. congruence. }
    unfold sample. rewrite Hs. split_and!; [done..|exact E].
Qed.

Lemma nrows_some (h : heap) p f :
  frames h !! p = Some f → nrows p h = (Some (row_names f), h).
Proof. intros Hf. unfold nrows, bind, get_frame, ret. by rewrite Hf. Qed.

Lemma set_class_some (h : heap) p cl f :
  frames h !! p = Some f →
  set_class p cl h
  = (Some tt, Heap (vecs h) (<[p := with_class cl f]> (frames h))).
Proof. intros Hf. unfold set_class. by rewrite Hf. Qed.

Lemma to_uint_small n : (N.of_nat n < 2 ^ 32)%N → to_uint n = n.
Proof.
  intros Hn. unfold to_uint. rewrite N.mod_small by done. apply Nat2N.id.
Qed.

Lemma to_uint_le n : to_uint n ≤ n.
Proof.
  unfold to_uint.
  assert (N.of_nat n mod 2 ^ 32 ≤ N.of_nat n)%N by (apply N.Div0.mod_le).
  lia.
Qed.

Lemma write_col_step (ha : heap) c G i g :
  col_state ha c G i g → i < G →
  ∃ hb, write_at (Shared c) i (g i) ha = (Some tt, hb) ∧
    frames hb = frames ha ∧ col_state hb c G (S i) g ∧
    ∀ c', c' ≠ c → vecs hb !! c' = vecs ha !! c'.
Proof.
  intros (v & Hv & Hl & Hk) Hi.
  eexists. split; [apply write_at_shared; [done|lia]|]. simpl.
  split; [done|]. split.
  - exists (<[i := g i]> v).
    split_and!; [|by rewrite length_insert|].
    + apply list_lookup_insert_eq. by eapply lookup_lt_Some.
    + intros k Hlt. destruct (decide (k = i)) as [->|Hne].
      * apply list_lookup_insert_eq. lia.
      * rewrite list_lookup_insert_ne by done. apply Hk. lia.
  - intros c' Hne. by apply list_lookup_insert_ne.
Qed.

Lemma col_state_other (ha hb : heap) c G i g :
  vecs hb !! c = vecs ha !! c → col_state ha c G i g → col_state hb c G i g.
Proof. intros Heq (v & Hv & ?). exists v. by rewrite Heq. Qed.

Lemma preserved_write (h ha hb : heap) c :
  preserved h ha → length (vecs h) ≤ c → frames hb = frames ha →
  (∀ c', c' ≠ c → vecs hb !! c' = vecs ha !! c') → preserved h hb.
Proof.
  intros [Hv Hf] Hc Hfr Hoth. split.
  - intros c' v Hc'. rewrite Hoth; [by apply Hv|].
    apply lookup_lt_Some in Hc'. lia.
  - intros p f Hp. rewrite Hfr. by apply Hf.
Qed.

(** On a non-empty list of series of one grid size the run returns the
    first copy, and its quaternion at every grid point is the aggregate
    of the sample set there: of the [nSamples] first series, which are
    all of them unless their number does not fit [unsigned int]. *)
Lemma mean_qts_impl_valid (agg : list VectorXd → Vector4d) l (h : heap) G :
  l ≠ [] →
  Forall (λ p, is_qts h G p = true) l →
  ∃ h', mean_qts_impl coerce stray agg l h = (Some (length (frames h)), h') ∧
    ∀ i, i < G →
      quat_at h' (length (frames h)) i
      = Some (agg (sample h (take (to_uint (length l)) l) i)).
Proof.
  intros Hne Hl.
  destruct l as [|p0 l']; [done|]. clear Hne. set (l := p0 :: l') in *.
  destruct (Rcpp_clone_ok l h) as (cl & h1 & Ecl & Hfirst).
  { eapply Forall_impl; [done|]. intros p. apply is_qts_clonable. }
  pose proof (Forall_inv Hl) as (f0 & Hf0 & HG & _ & Hcols)%is_qts_inv.
  destruct (Hfirst p0 f0 eq_refl Hf0) as (fo & Hcl0 & Hfo & Hdc).
  destruct Hdc as (Hrn & _ & _ & Hnd & HF).
  set (out := length (frames h)) in *.
  set (ls := take (to_uint (length l)) l).
  set (gw := λ k, c0 (agg (sample h ls k))).
  set (gx := λ k, c1 (agg (sample h ls k))).
  set (gy := λ k, c2 (agg (sample h ls k))).
  set (gz := λ k, c3 (agg (sample h ls k))).
  assert (Hcol : ∀ name g, name ∈ wxyz →
    ∃ c, find_col name (cols fo) = Some c ∧ length (vecs h) ≤ c ∧
         col_state h1 c G 0 g).
  { intros name g Hname. destruct (Hcols name Hname) as (c & v & Hc & Hv & Hlen).
    destruct (find_col_copy _ _ _ _ _ _ HF Hc) as (c' & Hc' & Hfresh & Hv').
    exists c'. split_and!; [done..|]. exists v. rewrite Hv', Hv.
    split_and!; [done..|]. intros k Hk. lia. }
  destruct (Hcol "w" gw ltac:(in_wxyz)) as (cw & Hfw & Hlw & Sw).
  destruct (Hcol "x" gx ltac:(in_wxyz)) as (cx & Hfx & Hlx & Sx).
  destruct (Hcol "y" gy ltac:(in_wxyz)) as (cy & Hfy & Hly & Sy).
  destruct (Hcol "z" gz ltac:(in_wxyz)) as (cz & Hfz & Hlz & Sz).
  assert (cw ≠ cx) as Nwx by (intros ->; by pose proof (find_col_inj _ _ _ _ Hnd Hfw Hfx)).
  assert (cw ≠ cy) as Nwy by (intros ->; by pose proof (find_col_inj _ _ _ _ Hnd Hfw Hfy)).
  assert (cw ≠ cz) as Nwz by (intros ->; by pose proof (find_col_inj _ _ _ _ Hnd Hfw Hfz)).
  assert (cx ≠ cy) as Nxy by (intros ->; by pose proof (find_col_inj _ _ _ _ Hnd Hfx Hfy)).
  assert (cx ≠ cz) as Nxz by (intros ->; by pose proof (find_col_inj _ _ _ _ Hnd Hfx Hfz)).
  assert (cy ≠ cz) as Nyz by (intros ->; by pose proof (find_col_inj _ _ _ _ Hnd Hfy Hfz)).
  unfold mean_qts_impl. fold l.
  erewrite bind_some by exact Ecl.
  erewrite bind_some by (apply list_elt_some; exact Hcl0).
  erewrite bind_some by (apply nrows_some; exact Hfo).
  rewrite Hrn, HG.
  match goal with
  | |- context [bind (for_loop G 0 ?body ?s) _ ?hh] =>
      destruct (for_loop_total
        (λ i (qv : list VectorXd) (ha : heap),
           length qv = to_uint (length l) ∧ preserved h ha ∧ frames ha = frames h1 ∧
           col_state ha cw G i gw ∧ col_state ha cx G i gx ∧
           col_state ha cy G i gy ∧ col_state ha cz G i gz)
        G 0 body s hh) as (qs & hG & E & Hlq & Hpres & Hfr & Fw & Fx & Fy & Fz)
  end.
  - intros i qv ha [_ Hi] (Hlen & Hpres & Hfr & Iw & Ix & Iy & Iz). simpl in Hi.
    destruct (gather_total h ha G l (to_uint (length l)) i qv Hl Hpres Hi
                (to_uint_le _) Hlen) as (_ & Hls & Eg).
    erewrite bind_some by exact Eg.
    assert (Hout : frames ha !! out = Some fo) by by rewrite Hfr.
    erewrite bind_some by
      (destruct Iw as (v & ? & _); by eapply column_by_name_real).
    erewrite bind_some by
      (destruct Ix as (v & ? & _); by eapply column_by_name_real).
    erewrite bind_some by
      (destruct Iy as (v & ? & _); by eapply column_by_name_real).
    erewrite bind_some by
      (destruct Iz as (v & ? & _); by eapply column_by_name_real).
    destruct (write_col_step ha cw G i gw Iw Hi) as (h2 & E2 & Hfr2 & Iw2 & O2).
    erewrite bind_some by exact E2.
    apply (col_state_other ha h2) in Ix, Iy, Iz; try (apply O2; congruence).
    pose proof (preserved_write _ _ _ _ Hpres Hlw Hfr2 O2) as Hpres2.
    destruct (write_col_step h2 cx G i gx Ix Hi) as (h3 & E3 & Hfr3 & Ix3 & O3).
    erewrite bind_some by exact E3.
    apply (col_state_other h2 h3) in Iw2, Iy, Iz; try (apply O3; congruence).
    pose proof (preserved_write _ _ _ _ Hpres2 Hlx Hfr3 O3) as Hpres3.
    destruct (write_col_step h3 cy G i gy Iy Hi) as (h4 & E4 & Hfr4 & Iy4 & O4).
    erewrite bind_some by exact E4.
    apply (col_state_other h3 h4) in Iw2, Ix3, Iz; try (apply O4; congruence).
    pose proof (preserved_write _ _ _ _ Hpres3 Hly Hfr4 O4) as Hpres4.
    destruct (write_col_step h4 cz G i gz Iz Hi) as (h5 & E5 & Hfr5 & Iz5 & O5).
    erewrite bind_some by exact E5.
    apply (col_state_other h4 h5) in Iw2, Ix3, Iy4; try (apply O5; congruence).
    pose proof (preserved_write _ _ _ _ Hpres4 Hlz Hfr5 O5) as Hpres5.
    eexists _, _. split; [done|].
    split_and!; [done|done|congruence|done..].
  - split_and!; [by rewrite length_replicate|by apply grows_preserved, (Rcpp_clone_grows _ _ _ _ Ecl)|done..].
  - erewrite bind_some by exact E.
    assert (Hout : frames hG !! out = Some fo) by by rewrite Hfr.
    erewrite bind_some by (apply set_class_some; exact Hout).
    eexists. split; [reflexivity|].
    intros i Hi.
    destruct Fw as (vw & Hvw & _ & Hw), Fx as (vx & Hvx & _ & Hx),
      Fy as (vy & Hvy & _ & Hy), Fz as (vz & Hvz & _ & Hz).
    rewrite (quat_at_cols _ out (with_class qts_class fo) i
               cw cx cy cz vw vx vy vz (gw i) (gx i) (gy i) (gz i));
      simpl; auto.
    + subst gw gx gy gz. simpl. by destruct (agg (sample h ls i)).
    + apply list_lookup_insert_eq. by eapply lookup_lt_Some.
Qed.

Lemma is_qts_intro (h : heap) G p f :
  frames h !! p = Some f → row_names f = G →
  Forall (λ nc, is_Some (vecs h !! nc.2)) (cols f) →
  (∀ name, name ∈ wxyz →
     ∃ c v, find_col name (cols f) = Some c ∧
            vecs h !! c = Some (Real v) ∧ length v = G) →
  is_qts h G p = true.
Proof.
  intros Hf HG Hcs Hcols. unfold is_qts. rewrite Hf.
  apply andb_true_intro; split; [apply andb_true_intro; split|].
  - by apply bool_decide_eq_true_2.
  - apply forallb_forall. intros nc Hnc%list_elem_of_In.
    apply bool_decide_eq_true_2. rewrite Forall_forall in Hcs. by apply Hcs.
  - apply forallb_forall. intros name Hname%list_elem_of_In.
    destruct (Hcols name Hname) as (c & v & Hc & Hv & Hlen).
    unfold real_col. rewrite (col_values_Some _ _ _ _ _ Hc Hv).
    by apply bool_decide_eq_true_2.
Qed.

Lemma find_col_name (cs : list (string * loc)) name k n c :
  NoDup cs.*2 → find_col name cs = Some c → cs !! k = Some (n, c) → n = name.
Proof.
  revert k. induction cs as [|[n0 c0] cs IH]; intros k; simpl; [done|].
  intros [Hnin Hnd]%NoDup_cons Hfind Hk.
  destruct k as [|k]; simpl in Hk.
  - injection Hk as -> ->. destruct (decide (n = name)); [done|].
    by apply find_col_elem in Hfind.
  - assert (c ∈ cs.*2) as Hin.
    { apply list_elem_of_fmap. exists (n, c). split; [done|].
      by eapply list_elem_of_lookup_2. }
    destruct (decide (n0 = name)); [|by eapply IH].
    by injection Hfind as ->.
Qed.

Lemma not_written (fo : frame) k n c :
  NoDup (cols fo).*2 → cols fo !! k = Some (n, c) → n ∉ wxyz → c ∉ written fo.
Proof.
  intros Hnd Hk Hn. unfold written. rewrite list_elem_of_omap.
  intros (name & Hname & Hfind).
  by rewrite (find_col_name _ _ _ _ _ Hnd Hfind Hk) in Hn.
Qed.

Lemma forallb_is_qts (h : heap) G l :
  forallb (is_qts h G) l = true → Forall (λ p, is_qts h G p = true) l.
Proof.
  rewrite forallb_forall, Forall_forall. intros H p Hp.
  by apply H, list_elem_of_In.
Qed.

(** A run on series: the pieces every statement below is made of. *)
Lemma mean_qts_impl_pieces (agg : list VectorXd → Vector4d) l (h : heap) G :
  l ≠ [] →
  Forall (λ p, is_qts h G p = true) l →
  ∃ h' p0 f0 fo,
    let out := length (frames h) in
    mean_qts_impl coerce stray agg l h = (Some out, h') ∧
    l !! 0 = Some p0 ∧ frames h !! p0 = Some f0 ∧
    frames h' !! out = Some (with_class qts_class fo) ∧
    structural_copy h h' p0 out ∧ is_qts h' G out = true ∧
    ∀ i, i < G →
      quat_at h' out i = Some (agg (sample h (take (to_uint (length l)) l) i)).
Proof.
  intros Hne Hl.
  destruct l as [|p0 l']; [done|]. set (l := p0 :: l') in *.
  destruct (mean_qts_impl_valid agg l h G) as (h' & E & Hq); [done..|].
  destruct (mean_qts_impl_run _ _ _ _ _ E) as (rc & h1 & Ecl & [[? _]|Hrun]); [done|].
  destruct Hrun as (cl & out & fo & -> & Hcl0 & Hfo & [_ Htouch] & [[? _]|[Hout Hfr]]);
    [done|]. simpl in Htouch.
  injection Hout as <-.
  destruct (Rcpp_clone_ok l h) as (cl' & h1' & Ecl' & Hfirst).
  { eapply Forall_impl; [done|]. intros p. apply is_qts_clonable. }
  rewrite Ecl in Ecl'. injection Ecl' as <- <-.
  pose proof (Forall_inv Hl) as (f0 & Hf0 & HG & Hcs & Hcols)%is_qts_inv.
  destruct (Hfirst p0 f0 eq_refl Hf0) as (fo' & _ & Hfo' & Hdc).
  rewrite Hfo in Hfo'. injection Hfo' as <-.
  destruct Hdc as (Hrn & _ & Hat & Hnd & HF).
  assert (Hlook : frames h' !! length (frames h) = Some (with_class qts_class fo)).
  { rewrite Hfr. apply list_lookup_insert_eq. by eapply lookup_lt_Some. }
  exists h', p0, f0, fo. simpl. split_and!; [done..| | |done].
  - exists f0, (with_class qts_class fo).
    split_and!; [done|by apply lookup_ge_None_2|done..|]. simpl.
    apply Forall2_same_length_lookup. split; [by eapply Forall2_length|].
    intros k nc nc' Hk Hk'.
    destruct (Forall2_lookup_lr _ _ _ _ _ _ HF Hk Hk') as (Hn & Hfresh & Hsome & Hcont).
    destruct (Htouch nc'.2) as [Hsame Hshape].
    split_and!; [done|by apply lookup_ge_None_2|by rewrite <- Hcont|].
    intros Hnw. rewrite Hsame, Hcont; [done|].
    apply (not_written fo k nc'.1); [done| |by rewrite Hn]. by destruct nc'.
  - eapply is_qts_intro; [done|simpl; congruence|simpl..].
    + apply Forall_forall. intros nc' [k Hk']%list_elem_of_lookup_1.
      destruct (Forall2_lookup_r _ _ _ _ _ HF Hk') as (nc & Hk & (_ & _ & Hsome & Hcont)).
      destruct (Htouch nc'.2) as [_ Hshape].
      rewrite <- Hcont in Hsome. destruct Hsome as [x Hx].
      rewrite Hx in Hshape. inversion Hshape. by eexists.
    + intros name Hname. destruct (Hcols name Hname) as (c & v & Hc & Hv & Hlen).
      destruct (find_col_copy _ _ _ _ _ _ HF Hc) as (c' & Hc' & _ & Hv').
      destruct (Htouch c') as [_ Hshape].
      rewrite Hv', Hv in Hshape. inversion Hshape as [? col' Hss|]; subst.
      destruct col' as [v'|]; [|done]. simpl in Hss.
      exists c', v'. split_and!; [done..|congruence].
Qed.

Lemma written_fresh (fo : frame) b n c :
  (cols fo).*2 = seq b n → c ∈ written fo → b ≤ c.
Proof.
  intros Hseq (name & _ & Hfind%find_col_elem)%list_elem_of_omap.
  rewrite Hseq in Hfind. apply elem_of_seq in Hfind. lia.
Qed.

Lemma with_class_id (f : frame) : with_class (class_attr f) f = f.
Proof. by destruct f. Qed.

(** Any run on a list that has a first element leaves the objects of the
    store it started from alone. *)
Lemma mean_qts_impl_preserved (agg : list VectorXd → Vector4d) l (h : heap) :
  0 < length l →
  preserved h (mean_qts_impl coerce stray agg l h).2.
Proof.
  intros Hne.
  destruct (mean_qts_impl coerce stray agg l h) as [r h'] eqn:E. simpl.
  destruct (mean_qts_impl_run _ _ _ _ _ E) as (rc & h1 & Ecl & Hrun).
  destruct (Rcpp_clone_grows _ _ _ _ Ecl) as [Hg Hcl].
  destruct Hrun as [[_ ->]|(cl & out & fo & -> & Hcl0 & Hfo & [_ Htouch] & Hfr)];
    [by apply grows_preserved|].
  destruct (Hcl _ eq_refl) as [Hlen Hout].
  apply elt_first in Hcl0; [|by rewrite Hlen].
  destruct (Hout _ Hcl0) as (p & f & fo' & _ & _ & -> & Hfo' & _ & _ & _ & _ & Hseq).
  rewrite Hfo in Hfo'. injection Hfo' as <-.
  apply grows_preserved in Hg as [Hv Hf]. simpl in Htouch. split.
  - intros c v Hc. destruct (Htouch c) as [Hsame _].
    rewrite Hsame; [by apply Hv|].
    intros Hw%(written_fresh _ _ _ _ Hseq). apply lookup_lt_Some in Hc. lia.
  - intros p' f' Hp'. pose proof (lookup_lt_Some _ _ _ Hp') as Hlt.
    destruct Hfr as [[_ ->]|[_ ->]]; [by apply Hf|].
    rewrite list_lookup_insert_ne by lia. by apply Hf.
Qed.

Lemma mean_qts_impl_wrote (agg : list VectorXd → Vector4d) l (h : heap) cl h1 out :
  Rcpp_clone l h = (Some cl, h1) → cl !! 0 = Some out →
  wrote_only_wxyz h1 out (mean_qts_impl coerce stray agg l h).1
                         (mean_qts_impl coerce stray agg l h).2.
Proof.
  intros Ecl Hcl0.
  destruct (mean_qts_impl coerce stray agg l h) as [r h'] eqn:E. simpl.
  destruct (Rcpp_clone_grows _ _ _ _ Ecl) as [_ Hcl].
  destruct (Hcl _ eq_refl) as [_ Hout].
  destruct (Hout _ Hcl0) as (p & f & fo & _ & _ & _ & Hfo & _ & _ & _ & _ & Hseq).
  assert (Hnd : NoDup (cols fo).*2) by (rewrite Hseq; apply NoDup_seq).
  exists fo. split; [done|].
  destruct (mean_qts_impl_run _ _ _ _ _ E) as (rc & h1' & Ecl' & Hrun).
  rewrite Ecl in Ecl'. injection Ecl' as <- <-.
  destruct Hrun as [[-> ->]|(cl' & out' & fo' & [= <-] & Hcl0' & Hfo' & [_ Htouch] & Hfr)].
  - split_and!; [by left|done| |done..].
    exists (class_attr fo). by rewrite with_class_id.
  - rewrite (elt_in_range _ _ _ Hcl0) in Hcl0'. injection Hcl0' as <-.
    rewrite Hfo in Hfo'. injection Hfo' as <-. simpl in Htouch.
    assert (Hvec : ∀ c, c ∉ written fo → vecs h' !! c = vecs h1 !! c)
      by (intros c; apply Htouch).
    assert (Hoth : ∀ k n c, cols fo !! k = Some (n, c) → n ∉ wxyz →
              vecs h' !! c = vecs h1 !! c).
    { intros k n c Hk Hn. apply Hvec. by eapply not_written. }
    destruct Hfr as [[-> Hfr]|[-> Hfr]]; rewrite Hfr.
    + split_and!; [by left|done| |done..].
      exists (class_attr fo). by rewrite with_class_id.
    + split_and!; [by right| | |done..].
      * intros p' Hp'. by rewrite list_lookup_insert_ne.
      * exists qts_class. apply list_lookup_insert_eq. by eapply lookup_lt_Some.
Qed.

(** ** The statements of the specification *)

Lemma length_nonempty {A} (l : list A) : 0 < length l → l ≠ [].
Proof. destruct l; simpl; [lia|done]. Qed.

Lemma mean_qts_impl_aggregated (agg : list VectorXd → Vector4d) l (h : heap) G :
  (0 < N.of_nat (length l) < 2 ^ 32)%N →
  forallb (is_qts h G) l = true →
  aggregated_pointwise agg h l G (mean_qts_impl coerce stray agg l h).
Proof.
  intros [Hpos Hsz] Hl%forallb_is_qts.
  destruct (mean_qts_impl_pieces agg l h G) as
    (h' & p0 & f0 & fo & E & Hp0 & _ & _ & Hcopy & _ & Hq);
    [apply length_nonempty; lia|done|].
  rewrite (to_uint_small _ Hsz), take_ge in Hq by done.
  exists (length (frames h)), h', p0. split_and!; [done..|].
  intros i Hi.
  destruct (gather_total h h G l (length l) i (replicate (length l) []) Hl)
    as (Hs & Hlen & _);
    [apply preserved_refl|done..|by rewrite length_replicate|].
  rewrite take_ge in Hs, Hlen by done.
  exists (sample h l i). split_and!; [done..|by apply Hq].
Qed.

(** C1.  For every non-empty list of series of one grid size [G],
    [mean_qts_impl] returns a structural copy of the first series in
    which, at every grid point [i] below [G], the quaternion is [gmean]
    of the sample set gathered at [i], one quaternion ([w], [x], [y],
    [z]) from each series of the list, in the order of the list. *)
Theorem mean_qts_impl_pointwise (gmean : list VectorXd → Vector4d) l (h : heap) G :
  (0 < N.of_nat (length l) < 2 ^ 32)%N →
  forallb (is_qts h G) l = true →
  aggregated_pointwise gmean h l G (mean_qts_impl coerce stray gmean l h).
Proof. apply mean_qts_impl_aggregated. Qed.

Lemma mean_qts_impl_shape (agg : list VectorXd → Vector4d) l (h : heap) G :
  0 < length l →
  forallb (is_qts h G) l = true →
  shape_preserved h l G (mean_qts_impl coerce stray agg l h).
Proof.
  intros Hsz%length_nonempty Hl%forallb_is_qts.
  destruct (mean_qts_impl_pieces agg l h G Hsz Hl)
    as (h' & p0 & f0 & fo & E & Hp0 & _ & _ & Hcopy & Hqts & _).
  by exists (length (frames h)), h', p0.
Qed.

(** C2.  For every non-empty list of series of grid size [G], the result of
    [mean_qts_impl] and of [median_qts_impl] is a series of grid size
    [G] with the columns (names, types, lengths) and the attributes of
    the first series of the list. *)
Theorem drivers_preserve_shape (gmean gmedian : list VectorXd → Vector4d)
    l (h : heap) G :
  0 < length l →
  forallb (is_qts h G) l = true →
  shape_preserved h l G (mean_qts_impl coerce stray gmean l h) ∧
  shape_preserved h l G (median_qts_impl coerce stray gmedian l h).
Proof.
  intros Hsz Hl. rewrite (median_as_mean gmedian). split; by apply mean_qts_impl_shape.
Qed.

(** C4.  [median_qts_impl] is [mean_qts_impl] with the aggregator it
    calls in the place of [gmean]: given the same aggregator the two
    drivers are the same function. *)
Theorem median_is_mean_up_to_aggregator (agg : list VectorXd → Vector4d) :
  median_qts_impl coerce stray agg = mean_qts_impl coerce stray agg.
Proof. reflexivity. Qed.

(** C5.  Whatever the store and the list, as long as the list has an
    input series, after a run of [mean_qts_impl] or of
    [median_qts_impl], also one that threw, every data frame and every
    column that was in the store before the call, the input series among
    them, is as it was: all writes went to objects the run created. *)
Theorem drivers_leave_inputs (gmean gmedian : list VectorXd → Vector4d) l (h : heap) :
  0 < length l →
  preserved h (mean_qts_impl coerce stray gmean l h).2 ∧
  preserved h (median_qts_impl coerce stray gmedian l h).2.
Proof.
  intros Hne. rewrite (median_as_mean gmedian).
  split; by apply mean_qts_impl_preserved.
Qed.

Lemma mean_qts_impl_tagged (agg : list VectorXd → Vector4d) l (h : heap) G :
  0 < length l →
  forallb (is_qts h G) l = true →
  tagged_qts (mean_qts_impl coerce stray agg l h).
Proof.
  intros Hsz%length_nonempty Hl%forallb_is_qts.
  destruct (mean_qts_impl_pieces agg l h G Hsz Hl)
    as (h' & p0 & f0 & fo & E & _ & _ & Hout & _).
  by exists (length (frames h)), h', (with_class qts_class fo).
Qed.

(** C6.  For every non-empty list of series, the result of
    [mean_qts_impl] and of [median_qts_impl] has the class attribute
    [qts], [tbl_df], [tbl], [data.frame]: a quaternion time series that
    is a tibble and a data frame. *)
Theorem drivers_tag_qts (gmean gmedian : list VectorXd → Vector4d) l (h : heap) G :
  0 < length l →
  forallb (is_qts h G) l = true →
  tagged_qts (mean_qts_impl coerce stray gmean l h) ∧
  tagged_qts (median_qts_impl coerce stray gmedian l h).
Proof.
  intros Hsz Hl. rewrite (median_as_mean gmedian). split; by eapply mean_qts_impl_tagged.
Qed.



Lemma mean_qts_impl_single close (agg : list VectorXd → Vector4d) (h : heap) G p :
  single_sample_identity close agg →
  is_qts h G p = true →
  series_unchanged close h p G (mean_qts_impl coerce stray agg [p] h).
Proof.
  intros Hid Hp.
  assert (Hl : Forall (λ p, is_qts h G p = true) [p]) by by constructor.
  destruct (mean_qts_impl_pieces agg [p] h G) as
    (h' & p0 & f0 & fo & E & [= <-] & _ & _ & Hcopy & _ & Hq);
    [done..|].
  rewrite to_uint_small in Hq by by vm_compute. simpl in Hq.
  exists (length (frames h)), h'. split_and!; [done..|].
  intros i Hi.
  destruct (sample_read h h G p i Hp (preserved_refl h) Hi)
    as (_ & _ & _ & _ & w & x & y & z & _ & _ & _ & _ & _ & _ & _ & _ & Hqi).
  exists (V4 w x y z), (agg [to_xd (V4 w x y z)]).
  split_and!; [done| |apply Hid].
  rewrite (Hq i Hi). unfold sample, samples_at. simpl. by rewrite Hqi.
Qed.

(** C9.  For every series of grid size [G], [mean_qts_impl] and
    [median_qts_impl] on the list of that one series return a copy of
    it: with an aggregator that returns a single sample within
    tolerance ([close]), the quaternion at every grid point of the
    result is within tolerance of the one of the input, and the other
    columns are those of the input. *)
Theorem drivers_single_series close (gmean gmedian : list VectorXd → Vector4d)
    (h : heap) G p :
  single_sample_identity close gmean →
  single_sample_identity close gmedian →
  is_qts h G p = true →
  series_unchanged close h p G (mean_qts_impl coerce stray gmean [p] h) ∧
  series_unchanged close h p G (median_qts_impl coerce stray gmedian [p] h).
Proof.
  intros Hmean Hmedian Hp. rewrite (median_as_mean gmedian).
  split; by apply mean_qts_impl_single.
Qed.

(** C10.  In every run of [mean_qts_impl] and of [median_qts_impl] that
    got its output [out] from the deep copy, the columns written are
    those [out] holds under [w], [x], [y] and [z]: every other column of
    the store, and so every other column of [out], the time column
    among them, holds what the copy put there. *)
Theorem drivers_write_only_wxyz (gmean gmedian : list VectorXd → Vector4d)
    l (h : heap) cl h1 out :
  Rcpp_clone l h = (Some cl, h1) → cl !! 0 = Some out →
  wrote_only_wxyz h1 out (mean_qts_impl coerce stray gmean l h).1
                         (mean_qts_impl coerce stray gmean l h).2 ∧
  wrote_only_wxyz h1 out (median_qts_impl coerce stray gmedian l h).1
                         (median_qts_impl coerce stray gmedian l h).2.
Proof.
  intros Ecl Hout. rewrite (median_as_mean gmedian). split; by eapply mean_qts_impl_wrote.
Qed.

(** * More properties of the drivers *)

(** ** Loops and sequences, once more *)

Lemma bind_some_inv {A B} (m : M A) (k : A → M B) h b h' :
  bind m k h = (Some b, h') →
  ∃ a h1, m h = (Some a, h1) ∧ k a h1 = (Some b, h').
Proof. intros [(a & h1 & ? & ?)|[_ [=]]]%bind_inv. eauto. Qed.

Lemma bind_ext {A B} (m : M A) (k1 k2 : A → M B) h :
  (∀ a h1, m h = (Some a, h1) → k1 a h1 = k2 a h1) →
  bind m k1 h = bind m k2 h.
Proof. unfold bind. destruct (m h) as [[a|] h1]; [|done]. intros H. by apply H. Qed.

Lemma bind_cong {A B} (m1 m2 : M A) (k : A → M B) h :
  m1 h = m2 h → bind m1 k h = bind m2 k h.
Proof. unfold bind. by intros ->. Qed.

(** Two bodies that agree on the states a loop goes through give the
    same loop. *)
Lemma for_loop_ext {St} (P : St → Prop) n start (b1 b2 : nat → St → M St) s h :
  (∀ i s1 h1, P s1 → b1 i s1 h1 = b2 i s1 h1) →
  (∀ i s1 h1 s2 h2, P s1 → b1 i s1 h1 = (Some s2, h2) → P s2) →
  P s → for_loop n start b1 s h = for_loop n start b2 s h.
Proof.
  intros Hext Hpres. revert start s h.
  induction n as [|n IH]; intros start s h HP; simpl; [done|].
  unfold bind at 1 2. rewrite <- (Hext start s h HP).
  destruct (b1 start s h) as [[s2|] h2] eqn:E; [|done].
  apply IH. by eapply Hpres.
Qed.

(** What every returning step establishes of the state holds of the
    state a returning loop ends in. *)
Lemma for_loop_post {St} (J : nat → St → Prop) n start (body : nat → St → M St)
    s (h : heap) s' h' :
  (∀ j s1 h1 s2 h2, start ≤ j < start + n → J j s1 →
     body j s1 h1 = (Some s2, h2) → J (S j) s2) →
  J start s → for_loop n start body s h = (Some s', h') → J (start + n) s'.
Proof.
  revert start s h. induction n as [|n IH]; intros start s h Hb HJ E; simpl in E.
  - injection E as <- <-. by rewrite Nat.add_0_r.
  - apply bind_some_inv in E as (s2 & h2 & E1 & E).
    replace (start + S n) with (S start + n) by lia.
    eapply IH; [|by eapply Hb; [lia|..]|done].
    intros j s1 h1 s3 h3 Hj. apply Hb. lia.
Qed.

(** A loop that returns ran each of its steps, and each returned, from a
    store the invariant holds of. *)
Lemma for_loop_reaches {St} (I : heap → Prop) n start (body : nat → St → M St)
    s h s' h' i :
  (∀ j s1 h1 r h2, I h1 → body j s1 h1 = (r, h2) → I h2) →
  I h → for_loop n start body s h = (Some s', h') →
  start ≤ i < start + n →
  ∃ s1 h1 s2 h2, I h1 ∧ body i s1 h1 = (Some s2, h2).
Proof.
  intros Hb. revert start s h.
  induction n as [|n IH]; intros start s h HI E Hi; simpl in E; [lia|].
  apply bind_some_inv in E as (s2 & h2 & E1 & E).
  destruct (decide (i = start)) as [->|Hne]; [by eauto 6|].
  eapply (IH (S start)); [by eapply Hb|done|lia].
Qed.

(** ** What the aggregator is called on *)

(** When the inner loop returns, every entry of [qValues] has been
    written: it is a full sample set. *)
Lemma gather_full (l : list loc) n i (qv : list VectorXd) (h : heap) qs h' :
  for_loop n 0 (λ j qValues,
    tmpValue <- list_elt stray l j ;;
    wValues <- column_by_name coerce tmpValue "w" ;;
    xValues <- column_by_name coerce tmpValue "x" ;;
    yValues <- column_by_name coerce tmpValue "y" ;;
    zValues <- column_by_name coerce tmpValue "z" ;;
    w <- read_at wValues i ;;
    x <- read_at xValues i ;;
    y <- read_at yValues i ;;
    z <- read_at zValues i ;;
    let avgQValue := V4 w x y z in
    ret (<[j := to_xd avgQValue]> qValues)) qv h
  = (Some qs, h') →
  length qv = n → full_sample_set n qs.
Proof.
  intros E Hlen.
  apply (for_loop_post
           (λ j (qv' : list VectorXd),
              length qv' = n ∧
              ∀ k, k < j → ∃ v, qv' !! k = Some v ∧ length v = 4)) in E.
  - destruct E as [Hl Hk]. split; [done|].
    apply Forall_lookup. intros k v Hv.
    destruct (Hk k) as (v' & Hv' & Hlv);
      [simpl; rewrite <- Hl; by eapply lookup_lt_Some|].
    unfold VectorXd in *. congruence.
  - intros j s1 h1 s2 h2 Hj [Hl Hk] Eb.
    apply bind_some_inv in Eb as (p & ha & _ & Eb).
    apply bind_some_inv in Eb as (wV & hb & _ & Eb).
    apply bind_some_inv in Eb as (xV & hc & _ & Eb).
    apply bind_some_inv in Eb as (yV & hd & _ & Eb).
    apply bind_some_inv in Eb as (zV & he & _ & Eb).
    apply bind_some_inv in Eb as (w & hf & _ & Eb).
    apply bind_some_inv in Eb as (x & hg & _ & Eb).
    apply bind_some_inv in Eb as (y & hi & _ & Eb).
    apply bind_some_inv in Eb as (z & hj & _ & Eb).
    injection Eb as <- <-. unfold VectorXd in *.
    split; [by rewrite length_insert|].
    intros k Hlt. destruct (decide (k = j)) as [->|Hne].
    + eexists. split; [apply list_lookup_insert_eq; lia|done].
    + rewrite list_lookup_insert_ne by done. apply Hk. lia.
  - split; [done|]. intros k Hk. lia.
Qed.

Lemma mean_qts_impl_agg_ext (agg agg' : list VectorXd → Vector4d) l (h : heap) :
  (∀ qs, full_sample_set (to_uint (length l)) qs → agg qs = agg' qs) →
  mean_qts_impl coerce stray agg l h = mean_qts_impl coerce stray agg' l h.
Proof.
  intros Hagree. unfold mean_qts_impl.
  apply bind_ext. intros cl h1 _.
  apply bind_ext. intros out h2 _.
  apply bind_ext. intros nGrid h3 _.
  apply bind_cong.
  apply (for_loop_ext (λ qv : list VectorXd, length qv = to_uint (length l)));
    [| |by rewrite length_replicate].
  - intros i s1 ha Hs1. apply bind_ext. intros qs hb Eg.
    apply gather_full in Eg; [|done]. by rewrite (Hagree qs Eg).
  - intros i s1 ha s2 hb Hs1 Eb.
    apply bind_some_inv in Eb as (qs & hc & Eg & Eb).
    apply gather_full in Eg as [Hl _]; [|done].
    apply bind_some_inv in Eb as (wV & hd & _ & Eb).
    apply bind_some_inv in Eb as (xV & he & _ & Eb).
    apply bind_some_inv in Eb as (yV & hf & _ & Eb).
    apply bind_some_inv in Eb as (zV & hg & _ & Eb).
    apply bind_some_inv in Eb as ([] & hi & _ & Eb).
    apply bind_some_inv in Eb as ([] & hj & _ & Eb).
    apply bind_some_inv in Eb as ([] & hk & _ & Eb).
    apply bind_some_inv in Eb as ([] & hl & _ & Eb).
    by injection Eb as <- <-.
Qed.

(** X7.  The drivers call their aggregator on full sample sets only, of
    [nSamples] vectors of four components, never on a [qValues] that is
    only partly filled: two aggregators that agree on those give the same
    run, result and store, whatever the store and the non-empty list.  So
    [mean_qts_impl] and [median_qts_impl] coincide wherever [gmean] and
    [gmedian] do. *)
Theorem drivers_call_on_full_sample_sets (gmean gmedian : list VectorXd → Vector4d)
    l (h : heap) :
  0 < length l →
  (∀ qs, full_sample_set (to_uint (length l)) qs → gmean qs = gmedian qs) →
  mean_qts_impl coerce stray gmean l h = median_qts_impl coerce stray gmedian l h.
Proof.
  intros _ Hagree. rewrite (median_as_mean gmedian). by apply mean_qts_impl_agg_ext.
Qed.

(** ** Any run, again *)

Lemma mean_qts_impl_shapes (agg : list VectorXd → Vector4d) l (h : heap) c :
  option_Forall2 same_shape (vecs (Rcpp_clone l h).2 !! c)
                            (vecs (mean_qts_impl coerce stray agg l h).2 !! c).
Proof.
  destruct (mean_qts_impl coerce stray agg l h) as [r h'] eqn:E.
  destruct (mean_qts_impl_run _ _ _ _ _ E) as (rc & h1 & Ecl & Hrun).
  rewrite Ecl. simpl.
  destruct Hrun as [[_ ->]|(cl & out & fo & _ & _ & _ & [_ Htouch] & _)].
  - apply option_same_shape_refl.
  - apply (Htouch c).
Qed.

(** X4.  In no run on a non-empty list does a column change its type or
    its length, and a column that is not a double vector keeps its
    contents, also under the names [w], [x], [y], [z]: there the
    component of the aggregate is written to the coerced vector of the
    handle and lost. *)
Theorem drivers_keep_column_shapes (gmean gmedian : list VectorXd → Vector4d)
    l (h : heap) c :
  0 < length l →
  option_Forall2 same_shape (vecs (Rcpp_clone l h).2 !! c)
                            (vecs (mean_qts_impl coerce stray gmean l h).2 !! c) ∧
  option_Forall2 same_shape (vecs (Rcpp_clone l h).2 !! c)
                            (vecs (median_qts_impl coerce stray gmedian l h).2 !! c).
Proof.
  intros _. rewrite (median_as_mean gmedian). split; apply mean_qts_impl_shapes.
Qed.

Lemma mean_qts_impl_fresh (agg : list VectorXd → Vector4d) l (h : heap) out h' :
  0 < length l →
  mean_qts_impl coerce stray agg l h = (Some out, h') → fresh_tagged_copy h l out h'.
Proof.
  intros Hne E.
  destruct (mean_qts_impl_run _ _ _ _ _ E) as (rc & h1 & Ecl & [[? _]|Hrun]); [done|].
  destruct Hrun as (cl & out' & fo & -> & Hcl0 & Hfo & _ & [[? _]|[[= <-] Hfr]]); [done|].
  destruct (Rcpp_clone_grows _ _ _ _ Ecl) as [_ Hcl].
  destruct (Hcl _ eq_refl) as [Hlen Hout].
  apply elt_first in Hcl0; [|by rewrite Hlen].
  destruct (Hout _ Hcl0) as (p & f & fo' & Hp & Hf & -> & Hfo' & Hrn & _ & Hat & Hn & Hseq).
  rewrite Hfo in Hfo'. injection Hfo' as <-.
  exists p, f, (with_class qts_class fo). simpl.
  do 2 (split; [done|]). split; [by apply lookup_ge_None_2|]. split.
  { rewrite Hfr. apply list_lookup_insert_eq. by eapply lookup_lt_Some. }
  do 4 (split; [done|]). rewrite Hseq. split; [apply NoDup_seq|].
  apply Forall_forall. intros c Hc%elem_of_seq.
  apply lookup_ge_None_2. lia.
Qed.

(** X6.  Whatever the store and the list, as long as the list has a
    first series, what [mean_qts_impl] or
    [median_qts_impl] returns is a new data frame, tagged [qts], with the
    row count, attributes and column names of the first series, whose
    columns are new vectors, no two the same: the result shares nothing
    with the inputs, also when these share columns. *)
Theorem drivers_return_fresh_copy (gmean gmedian : list VectorXd → Vector4d)
    l (h : heap) out h' :
  0 < length l →
  mean_qts_impl coerce stray gmean l h = (Some out, h') ∨
  median_qts_impl coerce stray gmedian l h = (Some out, h') →
  fresh_tagged_copy h l out h'.
Proof.
  rewrite (median_as_mean gmedian). intros Hne [E|E]; by eapply mean_qts_impl_fresh.
Qed.

Lemma in_store_clonable (h : heap) p : in_store h p = true → clonable h p.
Proof.
  unfold in_store. destruct (frames h !! p) as [f|] eqn:Hf; [|done].
  intros Hcs. exists f. split; [done|].
  rewrite forallb_forall in Hcs. apply Forall_forall. intros nc Hnc.
  apply list_elem_of_In, Hcs in Hnc. by apply bool_decide_eq_true in Hnc.
Qed.

Lemma forallb_in_store (h : heap) l :
  forallb (in_store h) l = true → Forall (clonable h) l.
Proof.
  rewrite forallb_forall, Forall_forall. intros H p Hp.
  by apply in_store_clonable, H, list_elem_of_In.
Qed.

Lemma n_cols_grows (h h' : heap) p : grows h h' → clonable h p → n_cols h' p = n_cols h p.
Proof.
  intros [_ Hf] (f & Hp & _). unfold n_cols.
  by rewrite Hp, (prefix_lookup_Some _ _ _ _ Hp Hf).
Qed.

Lemma Rcpp_clone_sizes l (h : heap) r h1 :
  Forall (clonable h) l → Rcpp_clone l h = (r, h1) →
  length (frames h1) = length (frames h) + length l ∧
  length (vecs h1) = length (vecs h) + sum_list (n_cols h <$> l).
Proof.
  revert h r h1. induction l as [|p l IH]; intros h r h1 Hl E; simpl in E.
  - injection E as <- <-. simpl. lia.
  - apply Forall_cons in Hl as [Hp Hl].
    destruct Hp as (f & Hf & Hcs).
    destruct (clone_frame_ok _ _ _ Hf Hcs) as (ha & fo & Ef & Hfr & Hdc).
    rewrite (bind_some _ _ _ _ _ Ef) in E.
    pose proof (clone_frame_grows _ _ _ _ Ef) as [Hg _].
    assert (Hva : length (vecs ha) = length (vecs h) + length (cols f)).
    { unfold clone_frame in Ef.
      rewrite (bind_some _ _ h f h) in Ef by (unfold get_frame; by rewrite Hf).
      apply bind_some_inv in Ef as (cs & hb & Ec & Ea).
      apply clone_cols_grows in Ec as (_ & _ & Hs).
      destruct (Hs _ eq_refl) as (_ & _ & Hlen).
      unfold alloc_frame in Ea. injection Ea as _ <-. by simpl. }
    assert (Hl' : Forall (clonable ha) l).
    { eapply Forall_impl; [done|]. intros q. by apply clonable_grows. }
    destruct (Rcpp_clone l ha) as [r' hb] eqn:Er.
    destruct (IH _ _ _ Hl' Er) as [Hfb Hvb].
    assert (h1 = hb) as ->.
    { unfold bind in E. rewrite Er in E. destruct r'; by injection E as _ <-. }
    rewrite Hfb, Hvb, Hva, Hfr, length_app. simpl.
    assert (n_cols h p = length (cols f)) as -> by (unfold n_cols; by rewrite Hf).
    assert (n_cols ha <$> l = n_cols h <$> l) as ->.
    { apply list_fmap_ext. intros k q Hq. apply n_cols_grows; [done|].
      rewrite Forall_forall in Hl. by eapply Hl, list_elem_of_lookup_2. }
    unfold fmap. lia.
Qed.

Lemma same_domain_length {A} (l1 l2 : list A) :
  (∀ c, is_Some (l1 !! c) ↔ is_Some (l2 !! c)) → length l1 = length l2.
Proof.
  intros H. destruct (decide (length l1 = length l2)) as [|Hne]; [done|].
  exfalso. destruct (decide (length l1 < length l2)).
  - apply (lookup_lt_is_Some_2 l2 (length l1)) in l as Hs; [|done..].
    apply H, lookup_lt_is_Some_1 in Hs. lia.
  - assert (length l2 < length l1) as Hlt by lia.
    apply (lookup_lt_is_Some_2 l1 (length l2)) in Hlt as Hs.
    apply H, lookup_lt_is_Some_1 in Hs. lia.
Qed.

Lemma mean_qts_impl_sizes (agg : list VectorXd → Vector4d) l (h : heap) :
  forallb (in_store h) l = true →
  copied_whole_list h l (mean_qts_impl coerce stray agg l h).2.
Proof.
  intros Hl%forallb_in_store.
  destruct (mean_qts_impl coerce stray agg l h) as [r h'] eqn:E. simpl.
  destruct (mean_qts_impl_run _ _ _ _ _ E) as (rc & h1 & Ecl & Hrun).
  destruct (Rcpp_clone_sizes _ _ _ _ Hl Ecl) as [Hf Hv].
  destruct Hrun as [[_ ->]|(cl & out & fo & _ & _ & _ & [_ Htouch] & Hfr)]; [done|].
  simpl in Htouch. split.
  - rewrite <- Hf. destruct Hfr as [[_ ->]|[_ ->]]; [done|apply length_insert].
  - rewrite <- Hv. apply same_domain_length. intros c.
    destruct (Htouch c) as [_ Hs]. split; intros [x Hx]; rewrite Hx in Hs;
      inversion Hs; by eexists.
Qed.

(** X5.  A run deep-copies every series of the list, not the first one
    only: on a non-empty list of series that are in the store, the store
    it ends in, also when it throws later, has one more data frame for
    each series of the list and one more vector for each of their
    columns. *)
Theorem drivers_copy_whole_list (gmean gmedian : list VectorXd → Vector4d)
    l (h : heap) :
  0 < length l →
  forallb (in_store h) l = true →
  copied_whole_list h l (mean_qts_impl coerce stray gmean l h).2 ∧
  copied_whole_list h l (median_qts_impl coerce stray gmedian l h).2.
Proof.
  intros _ Hl. rewrite (median_as_mean gmedian). split; by apply mean_qts_impl_sizes.
Qed.

Lemma mean_qts_impl_zero_rows (agg : list VectorXd → Vector4d) l (h : heap) p0 f0 :
  forallb (in_store h) l = true →
  l !! 0 = Some p0 → frames h !! p0 = Some f0 → row_names f0 = 0 →
  only_copied_and_tagged h l (mean_qts_impl coerce stray agg l h).
Proof.
  intros Hl%forallb_in_store Hp0 Hf0 Hrows.
  destruct (Rcpp_clone_ok l h Hl) as (cl & h1 & Ecl & Hfirst).
  destruct (Hfirst p0 f0 Hp0 Hf0) as (fo & Hcl0 & Hfo & (Hrn & _)).
  exists cl, h1, fo. split_and!; [done..|].
  unfold mean_qts_impl.
  erewrite bind_some by exact Ecl.
  erewrite bind_some by (apply list_elt_some; exact Hcl0).
  erewrite bind_some by (apply nrows_some; exact Hfo).
  rewrite Hrn, Hrows. simpl.
  erewrite bind_some by reflexivity.
  erewrite bind_some by (apply set_class_some; exact Hfo).
  reflexivity.
Qed.

(** X3.  When the first series of the list has no rows, neither loop
    runs: whatever the columns of the series are, [w], [x], [y] and [z]
    missing or not, and whatever the aggregator, the drivers return the
    first of the copies, tagged, and the store is that of the deep copy
    with these tags. *)
Theorem drivers_on_zero_rows (gmean gmedian : list VectorXd → Vector4d)
    l (h : heap) p0 f0 :
  forallb (in_store h) l = true →
  l !! 0 = Some p0 → frames h !! p0 = Some f0 → row_names f0 = 0 →
  only_copied_and_tagged h l (mean_qts_impl coerce stray gmean l h) ∧
  only_copied_and_tagged h l (median_qts_impl coerce stray gmedian l h).
Proof.
  intros Hl Hp0 Hf0 Hrows. rewrite (median_as_mean gmedian).
  split; by eapply mean_qts_impl_zero_rows.
Qed.

(** ** Series that cannot be read *)

(** One step of the outer loop of a driver changes no column but those
    the output holds under [w], [x], [y] and [z]. *)
Lemma outer_body_touched (agg : list VectorXd → Vector4d) l out fo (h1 : heap)
    i (s1 : list VectorXd) ha r1 hb :
  frames h1 !! out = Some fo →
  touched_only (written fo) h1 ha →
  (qValues <- for_loop (to_uint (length l)) 0 (λ j qValues,
      tmpValue <- list_elt stray l j ;;
      wValues <- column_by_name coerce tmpValue "w" ;;
      xValues <- column_by_name coerce tmpValue "x" ;;
      yValues <- column_by_name coerce tmpValue "y" ;;
      zValues <- column_by_name coerce tmpValue "z" ;;
      w <- read_at wValues i ;;
      x <- read_at xValues i ;;
      y <- read_at yValues i ;;
      z <- read_at zValues i ;;
      let avgQValue := V4 w x y z in
      ret (<[j := to_xd avgQValue]> qValues)) s1 ;;
    let avgQValue := agg qValues in
    wValues <- column_by_name coerce out "w" ;;
    xValues <- column_by_name coerce out "x" ;;
    yValues <- column_by_name coerce out "y" ;;
    zValues <- column_by_name coerce out "z" ;;
    write_at wValues i (c0 avgQValue) ;;;
    write_at xValues i (c1 avgQValue) ;;;
    write_at yValues i (c2 avgQValue) ;;;
    write_at zValues i (c3 avgQValue) ;;;
    ret qValues) ha = (r1, hb) →
  touched_only (written fo) h1 hb.
Proof.
  intros Hfo HI Eb.
  assert (Hwxyz : ∀ name (nv : @NumericVector D),
    name ∈ wxyz →
    (∀ c, Some nv = Some (Shared c) →
       ∃ f, frames ha !! out = Some f ∧ find_col name (cols f) = Some c) →
    ∀ c, nv = Shared c → c ∈ written fo).
  { intros name nv Hname Hc c ->.
    destruct (Hc c eq_refl) as (f & Hf & Hfind).
    rewrite (proj1 HI), Hfo in Hf. injection Hf as <-. by eapply written_elem. }
  apply bind_inv in Eb as [(qs & hx & Ein & Eb) | [Ein ->]];
    (apply readonly_eq in Ein as ->;
     [|apply readonly_for_loop; intros; readonly_tac]); [|done].
  apply bind_inv in Eb as [(wV & hx & Ec & Eb) | [Ec ->]];
    apply column_by_name_inv in Ec as [-> Hw]; [|done].
  apply bind_inv in Eb as [(xV & hx & Ec & Eb) | [Ec ->]];
    apply column_by_name_inv in Ec as [-> Hx]; [|done].
  apply bind_inv in Eb as [(yV & hx & Ec & Eb) | [Ec ->]];
    apply column_by_name_inv in Ec as [-> Hy]; [|done].
  apply bind_inv in Eb as [(zV & hx & Ec & Eb) | [Ec ->]];
    apply column_by_name_inv in Ec as [-> Hz]; [|done].
  pose proof (Hwxyz "w" _ ltac:(in_wxyz) Hw) as Hw'.
  pose proof (Hwxyz "x" _ ltac:(in_wxyz) Hx) as Hx'.
  pose proof (Hwxyz "y" _ ltac:(in_wxyz) Hy) as Hy'.
  pose proof (Hwxyz "z" _ ltac:(in_wxyz) Hz) as Hz'.
  apply bind_inv in Eb as [([] & h2 & Ew & Eb) | [Ew ->]];
    apply (write_at_touched _ _ _ _ _ _ _ Hw') in Ew;
    pose proof (touched_only_trans _ _ _ _ HI Ew) as HI2; [|done].
  apply bind_inv in Eb as [([] & h3 & Ew3 & Eb) | [Ew3 ->]];
    apply (write_at_touched _ _ _ _ _ _ _ Hx') in Ew3;
    pose proof (touched_only_trans _ _ _ _ HI2 Ew3) as HI3; [|done].
  apply bind_inv in Eb as [([] & h4 & Ew4 & Eb) | [Ew4 ->]];
    apply (write_at_touched _ _ _ _ _ _ _ Hy') in Ew4;
    pose proof (touched_only_trans _ _ _ _ HI3 Ew4) as HI4; [|done].
  apply bind_inv in Eb as [([] & h5 & Ew5 & Eb) | [Ew5 ->]];
    apply (write_at_touched _ _ _ _ _ _ _ Hz') in Ew5;
    pose proof (touched_only_trans _ _ _ _ HI4 Ew5) as HI5; [|done].
  by injection Eb as <- <-.
Qed.

Lemma touched_preserved (h h1 ha : heap) (fo : frame) n :
  grows h h1 → (cols fo).*2 = seq (length (vecs h)) n →
  touched_only (written fo) h1 ha → preserved h ha.
Proof.
  intros [Hv Hf]%grows_preserved Hseq [Hfr Htouch]. split.
  - intros c v Hc. destruct (Htouch c) as [Hsame _].
    rewrite Hsame; [by apply Hv|].
    intros Hw%(written_fresh _ _ _ _ Hseq). apply lookup_lt_Some in Hc. lia.
  - intros p f Hp. rewrite Hfr. by apply Hf.
Qed.

(** A handle that was made of a column, and read at [i], had doubles to
    read there. *)
Lemma read_needs_numeric (h ha : heap) p (f : frame) name nv i d hx hy :
  frames h !! p = Some f →
  Forall (λ nc, is_Some (vecs h !! nc.2)) (cols f) →
  preserved h ha →
  column_by_name coerce p name ha = (Some nv, hx) →
  read_at nv i hx = (Some d, hy) →
  ∃ v, numeric coerce h f name = Some v ∧ i < length v.
Proof.
  intros Hf Hcs [Hpv Hpf] Ec Er.
  pose proof (readonly_eq _ _ _ _ (readonly_column_by_name p name) Ec) as ->.
  unfold column_by_name, bind, get_frame, lift_opt, get_vec in Ec.
  rewrite (Hpf _ _ Hf) in Ec.
  destruct (find_col name (cols f)) as [c|] eqn:Hc; [|done].
  assert (is_Some (vecs h !! c)) as [col Hcol].
  { rewrite Forall_forall in Hcs.
    apply find_col_elem, list_elem_of_fmap in Hc as (nc & -> & Hnc). by apply Hcs. }
  rewrite (Hpv _ _ Hcol) in Ec. unfold numeric. rewrite Hc. simpl. rewrite Hcol. simpl.
  unfold read_at in Er. apply bind_some_inv in Er as (vs & hz & Ev & Ei).
  apply lift_opt_inv in Ei as [Hi _]. apply lookup_lt_Some in Hi.
  destruct col as [v|x].
  - injection Ec as <-. apply values_inv in Ev as [_ Hvs].
    specialize (Hvs _ _ eq_refl eq_refl). rewrite (Hpv _ _ Hcol) in Hvs.
    injection Hvs as ->. by exists vs.
  - destruct (coerce x) as [v|]; [|done]. injection Ec as <-.
    simpl in Ev. injection Ev as <- _. by exists v.
Qed.

Lemma mean_qts_impl_unreadable (agg : list VectorXd → Vector4d) l (h : heap)
    p0 f0 j p name i :
  forallb (in_store h) l = true →
  l !! 0 = Some p0 → frames h !! p0 = Some f0 →
  j < to_uint (length l) → l !! j = Some p →
  name ∈ wxyz → i < row_names f0 →
  unreadable coerce h p name i = true →
  (mean_qts_impl coerce stray agg l h).1 = None.
Proof.
  intros Hl%forallb_in_store Hp0 Hf0 Hj Hp Hname Hi Hun.
  destruct (mean_qts_impl coerce stray agg l h) as [[out|] h'] eqn:E; [exfalso|done].
  unfold mean_qts_impl in E.
  apply bind_some_inv in E as (cl & h1 & Ecl & E).
  apply bind_some_inv in E as (out' & hx & Eo & E).
  apply lift_opt_inv in Eo as [Hcl0 ->].
  apply bind_some_inv in E as (nGrid & hx & En & E).
  apply nrows_inv in En as [-> Hn].
  apply bind_some_inv in E as (qsF & hb & Eloop & _).
  destruct (Rcpp_clone_grows _ _ _ _ Ecl) as [Hg Hcl].
  destruct (Hcl _ eq_refl) as [Hlen Hout].
  apply elt_first in Hcl0; [|rewrite Hlen; by eapply lookup_lt_Some].
  destruct (Hout _ Hcl0) as (p' & f' & fo & Hp' & Hf' & -> & Hfo & Hrn & _ & _ & _ & Hseq).
  rewrite Hp0 in Hp'. injection Hp' as <-.
  rewrite Hf0 in Hf'. injection Hf' as <-.
  rewrite Hfo in Hn. injection Hn as ->.
  apply (for_loop_reaches (touched_only (written fo) h1) _ _ _ _ _ _ _ i) in Eloop
    as (s1 & ha & s2 & hc & HI & Eb);
    [|intros; by eapply outer_body_touched|apply touched_only_refl|lia].
  pose proof (touched_preserved _ _ _ _ _ Hg Hseq HI) as Hpres.
  apply bind_some_inv in Eb as (qs & hd & Ein & _).
  apply (for_loop_reaches (λ hx, hx = ha) _ _ _ _ _ _ _ j) in Ein
    as (t1 & he & t2 & hf & -> & Ej); [| |done|lia].
  2:{ intros j' t h2 r h3 -> Et.
      eapply readonly_eq; [|exact Et]. readonly_tac. }
  apply bind_some_inv in Ej as (q & hx & Eq & Ej).
  apply lift_opt_inv in Eq as [Hq ->].
  rewrite (elt_in_range _ _ _ Hp) in Hq. injection Hq as <-.
  apply bind_some_inv in Ej as (wV & hw & Ecw & Ej).
  apply bind_some_inv in Ej as (xV & hx & Ecx & Ej).
  pose proof (readonly_eq _ _ _ _ (readonly_column_by_name _ _) Ecw) as ->.
  pose proof (readonly_eq _ _ _ _ (readonly_column_by_name _ _) Ecx) as ->.
  apply bind_some_inv in Ej as (yV & hy & Ecy & Ej).
  pose proof (readonly_eq _ _ _ _ (readonly_column_by_name _ _) Ecy) as ->.
  apply bind_some_inv in Ej as (zV & hz & Ecz & Ej).
  pose proof (readonly_eq _ _ _ _ (readonly_column_by_name _ _) Ecz) as ->.
  apply bind_some_inv in Ej as (w & hw & Erw & Ej).
  pose proof (readonly_eq _ _ _ _ (readonly_read_at _ _) Erw) as ->.
  apply bind_some_inv in Ej as (x & hx & Erx & Ej).
  pose proof (readonly_eq _ _ _ _ (readonly_read_at _ _) Erx) as ->.
  apply bind_some_inv in Ej as (y & hy & Ery & Ej).
  pose proof (readonly_eq _ _ _ _ (readonly_read_at _ _) Ery) as ->.
  apply bind_some_inv in Ej as (z & hz & Erz & _).
  rewrite Forall_forall in Hl.
  destruct (Hl p) as (f & Hf & Hcs); [by eapply list_elem_of_lookup_2|].
  assert (∃ v, numeric coerce h f name = Some v ∧ i < length v) as (v & Hv & Hlt).
  { unfold wxyz in Hname. rewrite !elem_of_cons in Hname.
    destruct Hname as [->|[->|[->|[->|Hnil]]]];
      [by eapply read_needs_numeric..|by apply elem_of_nil in Hnil]. }
  unfold unreadable in Hun. rewrite Hf, Hv in Hun.
  apply bool_decide_eq_true in Hun. lia.
Qed.

(** X2.  The drivers never read past the end of a column: when one of
    the [nSamples] first series of the list has, under [w], [x], [y] or
    [z], no column, a column that does not coerce to doubles, or one with
    no value at a grid point [i] of the first series, the run throws and
    returns nothing. *)
Theorem drivers_fail_on_unreadable (gmean gmedian : list VectorXd → Vector4d)
    l (h : heap) p0 f0 j p name i :
  forallb (in_store h) l = true →
  l !! 0 = Some p0 → frames h !! p0 = Some f0 →
  j < to_uint (length l) → l !! j = Some p →
  name ∈ wxyz → i < row_names f0 →
  unreadable coerce h p name i = true →
  (mean_qts_impl coerce stray gmean l h).1 = None ∧
  (median_qts_impl coerce stray gmedian l h).1 = None.
Proof.
  intros. rewrite (median_as_mean gmedian).
  split; by eapply mean_qts_impl_unreadable.
Qed.

(** ** Series longer than the first *)

Lemma reaches_inv (h : heap) G p :
  reaches h G p = true →
  ∃ f, frames h !! p = Some f ∧
    ∀ name, name ∈ wxyz →
      ∃ c v, find_col name (cols f) = Some c ∧
             vecs h !! c = Some (Real v) ∧ G ≤ length v.
Proof.
  unfold reaches. destruct (frames h !! p) as [f|]; [|done].
  intros Hw. exists f. split; [done|].
  intros name Hname. rewrite forallb_forall in Hw.
  apply list_elem_of_In, Hw in Hname.
  destruct (col_values h f name) as [v|] eqn:Hv; [|done].
  apply bool_decide_eq_true in Hname.
  apply col_values_inv in Hv as (c & ? & ?). eauto.
Qed.

Lemma sample_read_ge (h ha : heap) G p i :
  reaches h G p = true → preserved h ha → i < G →
  ∃ cw cx cy cz w x y z,
    column_by_name coerce p "w" ha = (Some (Shared cw), ha) ∧
    column_by_name coerce p "x" ha = (Some (Shared cx), ha) ∧
    column_by_name coerce p "y" ha = (Some (Shared cy), ha) ∧
    column_by_name coerce p "z" ha = (Some (Shared cz), ha) ∧
    read_at (Shared cw) i ha = (Some w, ha) ∧
    read_at (Shared cx) i ha = (Some x, ha) ∧
    read_at (Shared cy) i ha = (Some y, ha) ∧
    read_at (Shared cz) i ha = (Some z, ha) ∧
    quat_at h p i = Some (V4 w x y z).
Proof.
  intros (f & Hf & Hcols)%reaches_inv [Hpv Hpf] Hi.
  destruct (Hcols "w" ltac:(in_wxyz)) as (cw & vw & Hfw & Hvw & Hlw).
  destruct (Hcols "x" ltac:(in_wxyz)) as (cx & vx & Hfx & Hvx & Hlx).
  destruct (Hcols "y" ltac:(in_wxyz)) as (cy & vy & Hfy & Hvy & Hly).
  destruct (Hcols "z" ltac:(in_wxyz)) as (cz & vz & Hfz & Hvz & Hlz).
  destruct (lookup_lt_is_Some_2 vw i) as [w Hw]; [lia|].
  destruct (lookup_lt_is_Some_2 vx i) as [x Hx]; [lia|].
  destruct (lookup_lt_is_Some_2 vy i) as [y Hy]; [lia|].
  destruct (lookup_lt_is_Some_2 vz i) as [z Hz]; [lia|].
  exists cw, cx, cy, cz, w, x, y, z.
  split_and!; try (eapply column_by_name_real; eauto; fail);
    try (eapply read_at_shared; eauto; fail).
  by eapply quat_at_cols.
Qed.

Lemma gather_total_ge (h ha : heap) G l n i (qv : list VectorXd) :
  Forall (λ p, reaches h G p = true) (take n l) → preserved h ha → i < G →
  n ≤ length l → length qv = n →
  length (sample h (take n l) i) = n ∧
  for_loop n 0 (λ j qValues,
    tmpValue <- list_elt stray l j ;;
    wValues <- column_by_name coerce tmpValue "w" ;;
    xValues <- column_by_name coerce tmpValue "x" ;;
    yValues <- column_by_name coerce tmpValue "y" ;;
    zValues <- column_by_name coerce tmpValue "z" ;;
    w <- read_at wValues i ;;
    x <- read_at xValues i ;;
    y <- read_at yValues i ;;
    z <- read_at zValues i ;;
    let avgQValue := V4 w x y z in
    ret (<[j := to_xd avgQValue]> qValues)) qv ha
  = (Some (sample h (take n l) i), ha).
Proof.
  intros Hl Hpres Hi Hn Hlen.
  match goal with
  | |- _ ∧ for_loop _ _ ?body _ _ = _ =>
      destruct (for_loop_total
        (λ j (qv' : list VectorXd) (hx : heap),
           hx = ha ∧ length qv' = n ∧
           ∀ k p, k < j → l !! k = Some p →
             ∃ q, quat_at h p i = Some q ∧ qv' !! k = Some (to_xd q))
        n 0 body qv ha) as (qs & hb & E & -> & Hlq & Hqs)
  end.
  - intros j qv' hx [_ Hj] (-> & Hlen' & Hinv). simpl in Hj.
    destruct (lookup_lt_is_Some_2 l j) as [p Hp]; [lia|].
    rewrite Forall_forall in Hl.
    destruct (sample_read_ge h ha G p i) as
      (cw & cx & cy & cz & w & x & y & z & Ew & Ex & Ey & Ez & Rw & Rx & Ry & Rz & Hq);
      [apply Hl; eapply list_elem_of_lookup_2; by rewrite lookup_take_lt|done..|].
    erewrite bind_some by (apply list_elt_some; exact Hp).
    erewrite bind_some by done. erewrite bind_some by done.
    erewrite bind_some by done. erewrite bind_some by done.
    erewrite bind_some by done. erewrite bind_some by done.
    erewrite bind_some by done. erewrite bind_some by done.
    eexists _, _. split; [done|]. split_and!; [done|by rewrite length_insert|].
    intros k p' Hk Hp'. destruct (decide (k = j)) as [->|Hne].
    + assert (p' = p) as -> by congruence. exists (V4 w x y z).
      split; [done|]. apply list_lookup_insert_eq. lia.
    + rewrite list_lookup_insert_ne by done. apply Hinv; [lia|done].
  - split_and!; [done..|lia].
  - assert (samples_at h (take n l) i = Some qs) as Hs.
    { apply mapM_Some_2, Forall2_same_length_lookup_2;
        [by rewrite length_take_le|].
      intros k p q [Hp Hk]%lookup_take_Some Hq. simpl in Hqs.
      destruct (Hqs k p) as (q' & Hq' & Hk'); [done..|].
      rewrite Hq'. simpl. congruence. }
    unfold sample. rewrite Hs. split; [done|exact E].
Qed.

Lemma write_col_step_from (ha : heap) c v0 i g :
  col_state_from ha c v0 i g → i < length v0 →
  ∃ hb, write_at (Shared c) i (g i) ha = (Some tt, hb) ∧
    frames hb = frames ha ∧ col_state_from hb c v0 (S i) g ∧
    ∀ c', c' ≠ c → vecs hb !! c' = vecs ha !! c'.
Proof.
  intros (v & Hv & Hl & Hk & Hrest) Hi.
  eexists. split; [apply write_at_shared; [done|lia]|]. simpl.
  split; [done|]. split.
  - exists (<[i := g i]> v).
    split_and!; [|by rewrite length_insert| |].
    + apply list_lookup_insert_eq. by eapply lookup_lt_Some.
    + intros k Hlt. destruct (decide (k = i)) as [->|Hne].
      * apply list_lookup_insert_eq. lia.
      * rewrite list_lookup_insert_ne by done. apply Hk. lia.
    + intros k Hle. rewrite list_lookup_insert_ne by lia. apply Hrest. lia.
  - intros c' Hne. by apply list_lookup_insert_ne.
Qed.

Lemma col_state_from_other (ha hb : heap) c v0 i g :
  vecs hb !! c = vecs ha !! c →
  col_state_from ha c v0 i g → col_state_from hb c v0 i g.
Proof. intros Heq (v & Hv & ?). exists v. by rewrite Heq. Qed.

Lemma quat_at_unfold (h : heap) p f i cw cx cy cz vw vx vy vz :
  frames h !! p = Some f →
  find_col "w" (cols f) = Some cw → find_col "x" (cols f) = Some cx →
  find_col "y" (cols f) = Some cy → find_col "z" (cols f) = Some cz →
  vecs h !! cw = Some (Real vw) → vecs h !! cx = Some (Real vx) →
  vecs h !! cy = Some (Real vy) → vecs h !! cz = Some (Real vz) →
  quat_at h p i
  = (w ← vw !! i; x ← vx !! i; y ← vy !! i; z ← vz !! i; Some (V4 w x y z)).
Proof.
  intros Hf Hfw Hfx Hfy Hfz Hvw Hvx Hvy Hvz.
  unfold quat_at. rewrite Hf. simpl.
  by rewrite (col_values_Some _ _ _ _ _ Hfw Hvw), (col_values_Some _ _ _ _ _ Hfx Hvx),
    (col_values_Some _ _ _ _ _ Hfy Hvy), (col_values_Some _ _ _ _ _ Hfz Hvz).
Qed.

Lemma mean_qts_impl_grid (agg : list VectorXd → Vector4d) l (h : heap) p0 f0 :
  forallb (in_store h) l = true →
  l !! 0 = Some p0 → frames h !! p0 = Some f0 →
  forallb (reaches h (row_names f0)) (p0 :: take (to_uint (length l)) l) = true →
  gathered_up_to agg h l p0 (row_names f0) (mean_qts_impl coerce stray agg l h).
Proof.
  intros Hl%forallb_in_store Hp0 Hf0 Hr.
  cbn [forallb] in Hr. apply andb_prop in Hr as [Hr0 Hr].
  assert (Hrs : Forall (λ p, reaches h (row_names f0) p = true)
                  (take (to_uint (length l)) l)).
  { rewrite forallb_forall in Hr. apply Forall_forall. intros p Hp.
    by apply Hr, list_elem_of_In. }
  clear Hr. set (G := row_names f0) in *.
  destruct (Rcpp_clone_ok l h Hl) as (cl & h1 & Ecl & Hfirst).
  destruct (Hfirst p0 f0 Hp0 Hf0) as (fo & Hcl0 & Hfo & Hdc).
  destruct Hdc as (Hrn & _ & _ & Hnd & HF).
  apply reaches_inv in Hr0 as (f0' & Hf0' & Hcols).
  rewrite Hf0 in Hf0'. injection Hf0' as <-.
  set (out := length (frames h)) in *.
  set (ls := take (to_uint (length l)) l) in *.
  set (gw := λ k, c0 (agg (sample h ls k))).
  set (gx := λ k, c1 (agg (sample h ls k))).
  set (gy := λ k, c2 (agg (sample h ls k))).
  set (gz := λ k, c3 (agg (sample h ls k))).
  assert (Hcol : ∀ name g, name ∈ wxyz →
    ∃ c0 v0 c, find_col name (cols f0) = Some c0 ∧ vecs h !! c0 = Some (Real v0) ∧
         G ≤ length v0 ∧
         find_col name (cols fo) = Some c ∧ length (vecs h) ≤ c ∧
         col_state_from h1 c v0 0 g).
  { intros name g Hname. destruct (Hcols name Hname) as (c & v & Hc & Hv & Hlen).
    destruct (find_col_copy _ _ _ _ _ _ HF Hc) as (c' & Hc' & Hfresh & Hv').
    exists c, v, c'. split_and!; [done..|]. exists v. rewrite Hv', Hv.
    split_and!; [done..| |done]. intros k Hk. lia. }
  destruct (Hcol "w" gw ltac:(in_wxyz)) as (bw & vw & cw & Hbw & Hvw & Hgw & Hfw & Hlw & Sw).
  destruct (Hcol "x" gx ltac:(in_wxyz)) as (bx & vx & cx & Hbx & Hvx & Hgx & Hfx & Hlx & Sx).
  destruct (Hcol "y" gy ltac:(in_wxyz)) as (by_ & vy & cy & Hby & Hvy & Hgy & Hfy & Hly & Sy).
  destruct (Hcol "z" gz ltac:(in_wxyz)) as (bz & vz & cz & Hbz & Hvz & Hgz & Hfz & Hlz & Sz).
  assert (cw ≠ cx) as Nwx by (intros ->; by pose proof (find_col_inj _ _ _ _ Hnd Hfw Hfx)).
  assert (cw ≠ cy) as Nwy by (intros ->; by pose proof (find_col_inj _ _ _ _ Hnd Hfw Hfy)).
  assert (cw ≠ cz) as Nwz by (intros ->; by pose proof (find_col_inj _ _ _ _ Hnd Hfw Hfz)).
  assert (cx ≠ cy) as Nxy by (intros ->; by pose proof (find_col_inj _ _ _ _ Hnd Hfx Hfy)).
  assert (cx ≠ cz) as Nxz by (intros ->; by pose proof (find_col_inj _ _ _ _ Hnd Hfx Hfz)).
  assert (cy ≠ cz) as Nyz by (intros ->; by pose proof (find_col_inj _ _ _ _ Hnd Hfy Hfz)).
  unfold gathered_up_to, mean_qts_impl. fold out ls.
  erewrite bind_some by exact Ecl.
  erewrite bind_some by (apply list_elt_some; exact Hcl0).
  erewrite bind_some by (apply nrows_some; exact Hfo).
  rewrite Hrn. fold G.
  match goal with
  | |- context [bind (for_loop G 0 ?body ?s) _ ?hh] =>
      destruct (for_loop_total
        (λ i (qv : list VectorXd) (ha : heap),
           length qv = to_uint (length l) ∧ preserved h ha ∧
           frames ha = frames h1 ∧
           col_state_from ha cw vw i gw ∧ col_state_from ha cx vx i gx ∧
           col_state_from ha cy vy i gy ∧ col_state_from ha cz vz i gz)
        G 0 body s hh) as (qs & hG & E & Hlq & Hpres & Hfr & Fw & Fx & Fy & Fz)
  end.
  - intros i qv ha [_ Hi] (Hlen & Hpres & Hfr & Iw & Ix & Iy & Iz). simpl in Hi.
    pose proof (gather_total_ge h ha G l (to_uint (length l)) i qv Hrs Hpres Hi
                  (to_uint_le _) Hlen) as [Hls Eg].
    erewrite bind_some by exact Eg.
    assert (Hout : frames ha !! out = Some fo) by by rewrite Hfr.
    erewrite bind_some by
      (destruct Iw as (v & ? & _); by eapply column_by_name_real).
    erewrite bind_some by
      (destruct Ix as (v & ? & _); by eapply column_by_name_real).
    erewrite bind_some by
      (destruct Iy as (v & ? & _); by eapply column_by_name_real).
    erewrite bind_some by
      (destruct Iz as (v & ? & _); by eapply column_by_name_real).
    destruct (write_col_step_from ha cw vw i gw Iw) as (h2 & E2 & Hfr2 & Iw2 & O2); [lia|].
    erewrite bind_some by exact E2.
    apply (col_state_from_other ha h2) in Ix, Iy, Iz; try (apply O2; congruence).
    pose proof (preserved_write _ _ _ _ Hpres Hlw Hfr2 O2) as Hpres2.
    destruct (write_col_step_from h2 cx vx i gx Ix) as (h3 & E3 & Hfr3 & Ix3 & O3); [lia|].
    erewrite bind_some by exact E3.
    apply (col_state_from_other h2 h3) in Iw2, Iy, Iz; try (apply O3; congruence).
    pose proof (preserved_write _ _ _ _ Hpres2 Hlx Hfr3 O3) as Hpres3.
    destruct (write_col_step_from h3 cy vy i gy Iy) as (h4 & E4 & Hfr4 & Iy4 & O4); [lia|].
    erewrite bind_some by exact E4.
    apply (col_state_from_other h3 h4) in Iw2, Ix3, Iz; try (apply O4; congruence).
    pose proof (preserved_write _ _ _ _ Hpres3 Hly Hfr4 O4) as Hpres4.
    destruct (write_col_step_from h4 cz vz i gz Iz) as (h5 & E5 & Hfr5 & Iz5 & O5); [lia|].
    erewrite bind_some by exact E5.
    apply (col_state_from_other h4 h5) in Iw2, Ix3, Iy4; try (apply O5; congruence).
    pose proof (preserved_write _ _ _ _ Hpres4 Hlz Hfr5 O5) as Hpres5.
    eexists _, _. split; [done|].
    split_and!; [done|done|congruence|done..].
  - split_and!; [by rewrite length_replicate
                |by apply grows_preserved, (Rcpp_clone_grows _ _ _ _ Ecl)|done..].
  - erewrite bind_some by exact E.
    assert (Hout : frames hG !! out = Some fo) by by rewrite Hfr.
    erewrite bind_some by (apply set_class_some; exact Hout).
    eexists. split; [reflexivity|].
    destruct Fw as (uw & Huw & _ & Hw & Hw'), Fx as (ux & Hux & _ & Hx & Hx'),
      Fy as (uy & Huy & _ & Hy & Hy'), Fz as (uz & Huz & _ & Hz & Hz').
    assert (Hlook : (<[out := with_class qts_class fo]> (frames hG)) !! out
                    = Some (with_class qts_class fo)).
    { apply list_lookup_insert_eq. by eapply lookup_lt_Some. }
    split.
    + intros i Hi.
      rewrite (quat_at_cols _ out (with_class qts_class fo) i
                 cw cx cy cz uw ux uy uz (gw i) (gx i) (gy i) (gz i));
        simpl; auto.
      subst gw gx gy gz. simpl. by destruct (agg (sample h ls i)).
    + intros i Hi.
      rewrite (quat_at_unfold _ out (with_class qts_class fo) i
                 cw cx cy cz uw ux uy uz); simpl; auto.
      rewrite (quat_at_unfold h p0 f0 i bw bx by_ bz vw vx vy vz); auto.
      by rewrite Hw', Hx', Hy', Hz'.
Qed.

(** X1.  The grid of a run is that of the first series: on a list whose
    first series has [G] rows, and whose [nSamples] first series, the
    first one too, have double columns [w], [x], [y], [z] of at least [G]
    values, the drivers return the first copy with, at every grid point
    below [G], the aggregate of the quaternions of the [nSamples] first
    series there; what the series hold past [G] is not read, and past
    [G] the result holds the quaternions of the first series.  [nSamples]
    is the length of the list as an [unsigned int]. *)
Theorem drivers_gather_first_rows (gmean gmedian : list VectorXd → Vector4d)
    l (h : heap) p0 f0 :
  forallb (in_store h) l = true →
  l !! 0 = Some p0 → frames h !! p0 = Some f0 →
  forallb (reaches h (row_names f0)) (p0 :: take (to_uint (length l)) l) = true →
  gathered_up_to gmean h l p0 (row_names f0) (mean_qts_impl coerce stray gmean l h) ∧
  gathered_up_to gmedian h l p0 (row_names f0) (median_qts_impl coerce stray gmedian l h).
Proof.
  intros Hl Hp0 Hf0 Hr. rewrite (median_as_mean gmedian).
  split; by apply mean_qts_impl_grid.
Qed.

End Properties.

(** ** The sample, run *)

Example ex_mean_returns :
  (mean_qts_impl ex_coerce ex_stray ex_first [0; 1] ex_store).1 = Some 2.
Proof. reflexivity. Qed.

Example ex_mean_quaternions :
  let h' := (mean_qts_impl ex_coerce ex_stray ex_first [1; 0] ex_store).2 in
  quat_at h' 2 0 = Some (V4 0 0 1 0)%Z ∧ quat_at h' 2 1 = Some (V4 0 0 0 1)%Z.
Proof. split; reflexivity. Qed.

Example ex_median_short_series :
  (median_qts_impl ex_coerce ex_stray ex_first [0; 1]
     (Heap (<[5 := Real [0%Z]]> (vecs ex_store)) (frames ex_store))).1 = None.
Proof. reflexivity. Qed.

Lemma mean_qts_impl_pointwise_witness :
  aggregated_pointwise ex_first ex_store [0; 1] 2
    (mean_qts_impl ex_coerce ex_stray ex_first [0; 1] ex_store).
Proof.
  apply (mean_qts_impl_pointwise ex_coerce ex_stray ex_first [0; 1] ex_store 2);
    [by vm_compute|reflexivity].
Defined.

Lemma drivers_preserve_shape_witness :
  shape_preserved ex_store [0; 1] 2 (mean_qts_impl ex_coerce ex_stray ex_first [0; 1] ex_store) ∧
  shape_preserved ex_store [0; 1] 2 (median_qts_impl ex_coerce ex_stray ex_first [0; 1] ex_store).
Proof.
  apply (drivers_preserve_shape ex_coerce ex_stray ex_first ex_first [0; 1] ex_store 2);
    [simpl; lia|reflexivity].
Defined.

Lemma drivers_tag_qts_witness :
  tagged_qts (mean_qts_impl ex_coerce ex_stray ex_first [1; 0] ex_store) ∧
  tagged_qts (median_qts_impl ex_coerce ex_stray ex_first [1; 0] ex_store).
Proof.
  apply (drivers_tag_qts ex_coerce ex_stray ex_first ex_first [1; 0] ex_store 2);
    [simpl; lia|reflexivity].
Defined.

Lemma drivers_leave_inputs_witness :
  preserved ex_store (mean_qts_impl ex_coerce ex_stray ex_first [0; 1] ex_store).2 ∧
  preserved ex_store (median_qts_impl ex_coerce ex_stray ex_first [0; 1] ex_store).2.
Proof.
  apply (drivers_leave_inputs ex_coerce ex_stray ex_first ex_first [0; 1] ex_store).
  simpl; lia.
Defined.



Lemma drivers_single_series_witness :
  series_unchanged eq ex_store 1 2 (mean_qts_impl ex_coerce ex_stray ex_first [1] ex_store) ∧
  series_unchanged eq ex_store 1 2 (median_qts_impl ex_coerce ex_stray ex_first [1] ex_store).
Proof.
  apply (drivers_single_series ex_coerce ex_stray eq ex_first ex_first ex_store 2 1);
    [by intros []|by intros []|reflexivity].
Defined.

Lemma drivers_write_only_wxyz_witness :
  let h1 := (Rcpp_clone [0; 1] ex_store).2 in
  wrote_only_wxyz h1 2 (mean_qts_impl ex_coerce ex_stray ex_first [0; 1] ex_store).1
                       (mean_qts_impl ex_coerce ex_stray ex_first [0; 1] ex_store).2 ∧
  wrote_only_wxyz h1 2 (median_qts_impl ex_coerce ex_stray ex_first [0; 1] ex_store).1
                       (median_qts_impl ex_coerce ex_stray ex_first [0; 1] ex_store).2.
Proof.
  apply (drivers_write_only_wxyz ex_coerce ex_stray ex_first ex_first [0; 1] ex_store [2; 3]);
    reflexivity.
Defined.

(** ** The sample, run further *)

Example ex_grid_of_first_series :
  (mean_qts_impl ex_coerce ex_stray ex_first [0; 2] ex_long_store).1 = Some 3 ∧
  (mean_qts_impl ex_coerce ex_stray ex_first [2; 0] ex_long_store).1 = None ∧
  (mean_qts_impl ex_coerce ex_stray ex_first [0; 1] ex_short_store).1 = None.
Proof. split_and!; reflexivity. Qed.

Lemma drivers_gather_first_rows_witness :
  gathered_up_to ex_first ex_long_store [0; 2] 0 2
    (mean_qts_impl ex_coerce ex_stray ex_first [0; 2] ex_long_store) ∧
  gathered_up_to ex_first ex_long_store [0; 2] 0 2
    (median_qts_impl ex_coerce ex_stray ex_first [0; 2] ex_long_store).
Proof.
  apply (drivers_gather_first_rows ex_coerce ex_stray ex_first ex_first [0; 2] ex_long_store 0
           (Frame [("time", 0); ("w", 1); ("x", 2); ("y", 3); ("z", 4)]
                  2 ["qts"; "tbl_df"; "tbl"; "data.frame"] []));
    reflexivity.
Defined.

Lemma drivers_fail_on_unreadable_witness :
  (mean_qts_impl ex_coerce ex_stray ex_first [0; 1] ex_short_store).1 = None ∧
  (median_qts_impl ex_coerce ex_stray ex_first [0; 1] ex_short_store).1 = None.
Proof.
  apply (drivers_fail_on_unreadable ex_coerce ex_stray ex_first ex_first [0; 1] ex_short_store 0
           (Frame [("time", 0); ("w", 1); ("x", 2); ("y", 3); ("z", 4)]
                  2 ["qts"; "tbl_df"; "tbl"; "data.frame"] [])
           1 1 "x" 1);
    [reflexivity|reflexivity|reflexivity|vm_compute; lia|reflexivity
    |apply list_elem_of_further, list_elem_of_here|simpl; lia|reflexivity].
Defined.

Lemma drivers_on_zero_rows_witness :
  only_copied_and_tagged ex_empty_store [0]
    (mean_qts_impl ex_coerce ex_stray ex_first [0] ex_empty_store) ∧
  only_copied_and_tagged ex_empty_store [0]
    (median_qts_impl ex_coerce ex_stray ex_first [0] ex_empty_store).
Proof.
  apply (drivers_on_zero_rows ex_coerce ex_stray ex_first ex_first [0] ex_empty_store 0
           (Frame [("time", 0); ("label", 1)] 0 ["data.frame"] []));
    reflexivity.
Defined.

Lemma drivers_copy_whole_list_witness :
  copied_whole_list ex_store [0; 1]
    (mean_qts_impl ex_coerce ex_stray ex_first [0; 1] ex_store).2 ∧
  copied_whole_list ex_store [0; 1]
    (median_qts_impl ex_coerce ex_stray ex_first [0; 1] ex_store).2.
Proof.
  apply (drivers_copy_whole_list ex_coerce ex_stray ex_first ex_first [0; 1] ex_store);
    [simpl; lia|reflexivity].
Defined.

Lemma drivers_keep_column_shapes_witness :
  option_Forall2 same_shape
    (vecs (Rcpp_clone [0; 1] ex_store).2 !! 11)
    (vecs (mean_qts_impl ex_coerce ex_stray ex_first [0; 1] ex_store).2 !! 11) ∧
  option_Forall2 same_shape
    (vecs (Rcpp_clone [0; 1] ex_store).2 !! 11)
    (vecs (median_qts_impl ex_coerce ex_stray ex_first [0; 1] ex_store).2 !! 11).
Proof.
  apply (drivers_keep_column_shapes ex_coerce ex_stray ex_first ex_first
           [0; 1] ex_store 11).
  simpl; lia.
Defined.

Lemma drivers_return_fresh_copy_witness :
  fresh_tagged_copy ex_store [1; 0] 2
    (mean_qts_impl ex_coerce ex_stray ex_first [1; 0] ex_store).2.
Proof.
  apply (drivers_return_fresh_copy ex_coerce ex_stray ex_first ex_first [1; 0] ex_store 2);
    [simpl; lia|left; reflexivity].
Defined.

Lemma drivers_call_on_full_sample_sets_witness :
  mean_qts_impl ex_coerce ex_stray ex_first [0; 1] ex_store
  = median_qts_impl ex_coerce ex_stray ex_first_or_nines [0; 1] ex_store.
Proof.
  apply (drivers_call_on_full_sample_sets ex_coerce ex_stray ex_first ex_first_or_nines
           [0; 1] ex_store); [simpl; lia|].
  intros qs [Hlen _]. destruct qs; [by vm_compute in Hlen|reflexivity].
Defined.

(** ** The aggregators *)

Section AggregatorProperties.

Import Aggregator.

Context {R Q T : Type} {geometry : Geometry R Q T}.
Variable tolerance : R.
Variable cap : nat.

Lemma refine_enough (update : Q → Q * R) fuel (s : refinement) :
  iterations s ≤ cap → cap - iterations s ≤ fuel →
  ∃ s', refine tolerance cap update fuel s = Some s' ∧
        stopped tolerance cap s' ∧
        ∀ fuel', fuel ≤ fuel' → refine tolerance cap update fuel' s = Some s'.
Proof.
  revert s. induction fuel as [|fuel IH]; intros s Hle Hfuel.
  - exists s. assert (iterations s = cap) as Hcap by lia.
    assert (goes_on tolerance cap s = false) as Hstop.
    { unfold goes_on. rewrite bool_decide_eq_false_2 by lia.
      apply andb_false_r. }
    split_and!.
    + simpl. by rewrite Hstop.
    + split; [done|by right].
    + intros fuel' _. destruct fuel'; simpl; by rewrite Hstop.
  - simpl. destruct (goes_on tolerance cap s) eqn:Hgo.
    + pose proof Hgo as Hgo'.
      apply andb_prop in Hgo' as [_ Hlt%bool_decide_eq_true].
      destruct (IH (refine_once update s)) as (s' & E & Hs' & Hmore).
      { unfold refine_once. destruct (update (estimate s)). simpl. lia. }
      { unfold refine_once. destruct (update (estimate s)). simpl. lia. }
      exists s'. split_and!; [done..|].
      intros fuel' Hf. destruct fuel' as [|fuel']; [lia|].
      simpl. rewrite Hgo. apply Hmore. lia.
    + exists s. split_and!; [done| |].
      * split; [done|]. unfold goes_on in Hgo.
        apply andb_false_iff in Hgo as [Hc|Hc].
        -- left. by apply negb_false_iff.
        -- right. apply bool_decide_eq_false in Hc. lia.
      * intros fuel' _. destruct fuel'; simpl; by rewrite Hgo.
Qed.

Example ex_mean_converges :
  geometric_mean_run (geometry := ex_line) 1%Z 10 10 [0; 10]%Z
  = Some (Refinement 5%Z 2 (Some 0%Z)).
Proof. reflexivity. Qed.

Example ex_median_converges :
  geometric_median (geometry := ex_line) 1%Z 10 10 [0; 10; 2]%Z = Some 4%Z.
Proof. reflexivity. Qed.

Example ex_mean_capped :
  geometric_mean_run (geometry := ex_overshoot) 1%Z 10 10 [0; 10]%Z
  = Some (Refinement 0%Z 10 (Some 5%Z)).
Proof. reflexivity. Qed.

Example ex_mean_out_of_fuel :
  geometric_mean_run (geometry := ex_overshoot) 1%Z 10 9 [0; 10]%Z = None.
Proof. reflexivity. Qed.

(** C8.  For every sample set, whatever the numerical operations give
    on it, the refinements of [geometric_mean] and of
    [geometric_median] stop: with fuel for [cap] iterations both return
    an estimate, from a refinement in which the last step fell below
    the tolerance or the cap was reached, and with more fuel they
    return the same estimate. *)
Theorem aggregators_terminate (samples : list Q) :
  ∃ sm sd,
    geometric_mean_run tolerance cap cap samples = Some sm ∧
    geometric_median_run tolerance cap cap samples = Some sd ∧
    stopped tolerance cap sm ∧ stopped tolerance cap sd ∧
    ∀ more,
      geometric_mean tolerance cap (cap + more) samples = Some (estimate sm) ∧
      geometric_median tolerance cap (cap + more) samples = Some (estimate sd).
Proof.
  destruct (refine_enough (mean_update samples) cap
              (Refinement (initial samples) 0 None))
    as (sm & Em & Hsm & Hmorem); [simpl; lia..|].
  destruct (refine_enough (median_update samples) cap
              (Refinement (estimate sm) 0 None))
    as (sd & Ed & Hsd & Hmored); [simpl; lia..|].
  exists sm, sd. unfold geometric_median_run, geometric_mean, geometric_mean_run.
  rewrite Em. simpl. split_and!; [done..|].
  intros more. unfold geometric_median, geometric_median_run,
    geometric_mean, geometric_mean_run.
  rewrite (Hmorem (cap + more)) by lia. simpl.
  by rewrite (Hmored (cap + more)) by lia.
Qed.

End AggregatorProperties.
